(** * dfa-identify: the size-iteration driver and the stutter optimizer

    A shallow embedding of [dfa_identify/identify.py].  Python generators
    are modelled by the trace of events they perform when drained: the
    oracle sessions they open and the values they yield, followed by the
    way the generator ends. *)

From Stdlib Require Import String Ascii ZArith Arith List Bool Lia Sorted.
Import ListNotations.
Open Scope Z_scope.

(** ** Words, clauses, models *)

(** Symbols are arbitrary hashable Python values; the test-suite uses
    integers and one-character strings. *)
Inductive Symbol : Type :=
| SymInt (z : Z)
| SymStr (s : string).

Definition Word := list Symbol.

Definition symbol_eqb (a b : Symbol) : bool :=
  match a, b with
  | SymInt x, SymInt y => Z.eqb x y
  | SymStr x, SymStr y => String.eqb x y
  | _, _ => false
  end.

Fixpoint word_eqb (u v : Word) : bool :=
  match u, v with
  | [], [] => true
  | a :: u', b :: v' => symbol_eqb a b && word_eqb u' v'
  | _, _ => false
  end.

Definition Clause := list Z.
Definition Clauses := list Clause.
Definition Model := list Z.

(** ** Exceptions *)

Inductive exn : Type := ValueError | AssertionError | IndexError.

Inductive result (A : Type) : Type :=
| Ok (a : A)
| Raise (e : exn).
Arguments Ok {A} a.
Arguments Raise {A} e.

Definition bind {A B} (r : result A) (k : A -> result B) : result B :=
  match r with
  | Ok a => k a
  | Raise e => Raise e
  end.

Notation "x <- e ;; k" := (bind e (fun x => k))
  (at level 61, e at next level, right associativity).

(** ** Generators as event traces *)

Inductive event (A : Type) : Type :=
| Query (q : Clauses)
| Yield (x : A).
Arguments Query {A} q.
Arguments Yield {A} x.

Inductive ending : Type :=
| Stop
| Raised (e : exn).

(** The values a trace yields, in order. *)
Fixpoint items {A} (t : list (event A)) : list A :=
  match t with
  | [] => []
  | Query _ :: t' => items t'
  | Yield x :: t' => x :: items t'
  end.

(** The oracle sessions a trace opens, in order. *)
Fixpoint queries {A} (t : list (event A)) : list Clauses :=
  match t with
  | [] => []
  | Query q :: t' => q :: queries t'
  | Yield _ :: t' => queries t'
  end.

Definition map_event {A B} (f : A -> B) (e : event A) : event B :=
  match e with
  | Query q => Query q
  | Yield x => Yield (f x)
  end.

(** ** External collaborators *)

(** A py-sat compatible solver factory: [solver_fact(bootstrap_with=q)]
    followed by [solve()], [get_model()] and [enum_models()]. *)
Record SolverFact : Type := {
  solve : Clauses -> bool;
  get_model : Clauses -> Model;
  enum_models : Clauses -> list Model
}.

(** [pysat.card.CardEnc]: clause synthesis from [lits], [bound], [top_id]. *)
Record CardEnc : Type := {
  atmost : list Z -> Z -> Z -> Clauses;
  equals : list Z -> Z -> Z -> Clauses
}.

(** The attributes of a [Codec] that the driver and the optimizer read,
    and the two the decoder needs. *)
Record Codec : Type := {
  n_nodes : nat;
  n_colors : nat;
  symbols : list Symbol;
  max_id : Z;
  non_stutter_lits : list Z
}.

(** ** Python built-ins *)

(** [l[i]] with Python's negative indices. *)
Definition py_index (l : list Z) (i : Z) : result Z :=
  let n := Z.of_nat (length l) in
  if (0 <=? i) && (i <? n) then Ok (nth (Z.to_nat i) l 0)
  else if (- n <=? i) && (i <? 0) then Ok (nth (Z.to_nat (n + i)) l 0)
  else Raise IndexError.

(** [max(l)] on a list of integers. *)
Definition py_max (l : list Z) : result Z :=
  match l with
  | [] => Raise ValueError
  | x :: r => Ok (fold_left Z.max r x)
  end.

(** [max(map(max, clauses))]: the inner [max] runs lazily, left to right. *)
Fixpoint py_max_map_max (cs : Clauses) : result Z :=
  match cs with
  | [] => Raise ValueError
  | c :: r =>
      m <- py_max c ;;
      match r with
      | [] => Ok m
      | _ => m' <- py_max_map_max r ;; Ok (Z.max m m')
      end
  end.

(** [range(lo, hi)]. *)
Definition py_range (lo hi : Z) : list Z :=
  map (fun i => lo + Z.of_nat i) (seq 0 (Z.to_nat (hi - lo))).

(** ** Truth of literals and clauses under a model *)

(** Variable [v] is true in [m] when [m[v - 1] > 0]. *)
Definition var_true (m : Model) (v : Z) : bool :=
  nth (Z.to_nat (v - 1)) m 0 >? 0.

Definition lit_true (m : Model) (l : Z) : bool :=
  if l >? 0 then var_true m l else negb (var_true m (- l)).

Definition clause_true (m : Model) (c : Clause) : bool :=
  existsb (lit_true m) c.

Definition satisfies (m : Model) (cs : Clauses) : bool :=
  forallb (clause_true m) cs.

(** The contract of the oracle: what it enumerates for a clause set
    satisfies the clause set. *)
Definition oracle_sound (solver_fact : SolverFact) : Prop :=
  forall q m, In m (enum_models solver_fact q) -> satisfies m q = true.

(** ** The stutter optimizer: [order_models_by_stutter] *)

Module Stutter.
Section Optimizer.

Variable solver_fact : SolverFact.
Variable card : CardEnc.
Variable codec : Codec.
Variable clauses : Clauses.

Definition lits : list Z := non_stutter_lits codec.

(** [sum(model[x - 1] > 0 for x in lits)] *)
Fixpoint count_true (ls : list Z) (model : Model) : result Z :=
  match ls with
  | [] => Ok 0
  | x :: r =>
      v <- py_index model (x - 1) ;;
      c <- count_true r model ;;
      Ok ((if v >? 0 then 1 else 0) + c)
  end.

Definition non_stutter_count (model : Model) : result Z :=
  count_true lits model.

(** The clause set the session of the nested [find_models] holds after
    [append_formula]. *)
Definition formula_query
    (make_formula : list Z -> Z -> Z -> Clauses) (top_id bound : Z) : Clauses :=
  clauses ++ make_formula lits bound top_id.

(** The nested generator [find_models(bound, make_formula)], drained. *)
Definition find_models
    (make_formula : list Z -> Z -> Z -> Clauses) (top_id bound : Z)
  : list (event Model) :=
  let q := formula_query make_formula top_id bound in
  Query q ::
    (if solve solver_fact q then map Yield (enum_models solver_fact q) else []).

(** [next(find_models(bound, make_formula), None)]: the generator is
    abandoned after its first value. *)
Definition first_model
    (make_formula : list Z -> Z -> Z -> Clauses) (top_id bound : Z)
  : option Model :=
  let q := formula_query make_formula top_id bound in
  if solve solver_fact q then hd_error (enum_models solver_fact q) else None.

(** One pass through the body of [while lo < hi]: the new [lo] and [hi]. *)
Definition search_step (top_id lo hi : Z) : result (Z * Z) :=
  let mid := (lo + hi) / 2 in
  match first_model (atmost card) top_id mid with
  | Some witness =>
      hi' <- non_stutter_count witness ;;
      if hi' <=? mid then Ok (lo, hi') else Raise AssertionError
  | None => Ok (mid + 1, hi)
  end.

(** The [while lo < hi] loop: the sessions it opens and the final [lo]
    and [hi].  [None] means the iteration budget ran out before the loop
    condition failed. *)
Fixpoint search (fuel : nat) (top_id lo hi : Z)
  : option (list Clauses * result (Z * Z)) :=
  if lo <? hi then
    match fuel with
    | O => None
    | S fuel' =>
        let q := formula_query (atmost card) top_id ((lo + hi) / 2) in
        match search_step top_id lo hi with
        | Raise e => Some ([q], Raise e)
        | Ok (lo', hi') =>
            match search fuel' top_id lo' hi' with
            | Some (qs, r) => Some (q :: qs, r)
            | None => None
            end
        end
    end
  else Some ([], Ok (lo, hi)).

(** The [for bound in range(lo, naive_bound + 1)] loop. *)
Fixpoint sweep (top_id : Z) (bounds : list Z) (candidate_bound : Z)
  : list (event Model) * ending :=
  match bounds with
  | [] => ([], Stop)
  | bound :: rest =>
      if bound >? candidate_bound then
        let q := formula_query (atmost card) top_id bound in
        match first_model (atmost card) top_id bound with
        | None => ([Query q], Stop)
        | Some witness =>
            match non_stutter_count witness with
            | Raise e => ([Query q], Raised e)
            | Ok c =>
                let (t, e) := sweep top_id rest c in
                (Query q :: find_models (equals card) top_id bound ++ t, e)
            end
        end
      else
        let (t, e) := sweep top_id rest candidate_bound in
        (find_models (equals card) top_id bound ++ t, e)
  end.

(** The generator body, drained.  The ending is [None] when [fuel]
    iterations were not enough for the [while] loop. *)
Definition order_models_by_stutter (fuel : nat) (model : Model)
  : list (event Model) * option ending :=
  match py_max_map_max clauses with
  | Raise e => ([], Some (Raised e))
  | Ok top0 =>
      let top_id := Z.max (max_id codec) top0 in
      match non_stutter_count model with
      | Raise e => ([], Some (Raised e))
      | Ok candidate_bound =>
          let hi := candidate_bound in
          let lo := Z.of_nat (n_colors codec) - 1 in
          match search fuel top_id lo hi with
          | None => ([], None)
          | Some (qs, Raise e) => (map Query qs, Some (Raised e))
          | Some (qs, Ok (lo', _)) =>
              let naive_bound := Z.of_nat (length lits) in
              let (t, e) :=
                sweep top_id (py_range lo' (naive_bound + 1)) candidate_bound in
              (map Query qs ++ t, Some e)
          end
      end
  end.

(** *** Contracts of the collaborators *)

(** Some model of the clause set has [c] non-stutter transitions. *)
Definition attains (c : Z) : Prop :=
  exists m, satisfies m clauses = true /\ non_stutter_count m = Ok c.

(** The least non-stutter count among the models of the clause set. *)
Definition minimum (c : Z) : Prop :=
  attains c /\ forall c', attains c' -> c <= c'.

(** The contract of the at-most sessions: a witness is a model of the
    clause set, and no witness means no model within the bound. *)
Definition atmost_contract : Prop :=
  forall top_id b,
    (forall w, first_model (atmost card) top_id b = Some w ->
               satisfies w clauses = true)
    /\ (first_model (atmost card) top_id b = None ->
        forall c, attains c -> b < c).

(** ... and a witness has at most [b] non-stutter transitions. *)
Definition atmost_bounded : Prop :=
  forall top_id b w,
    first_model (atmost card) top_id b = Some w ->
    exists c, non_stutter_count w = Ok c /\ c <= b.

(** The contract of the exactly sessions: every model they enumerate is
    a model of the clause set with exactly [b] non-stutter transitions. *)
Definition equals_exact : Prop :=
  forall top_id b w,
    In w (items (find_models (equals card) top_id b)) ->
    satisfies w clauses = true /\ non_stutter_count w = Ok b.

(** ... and they enumerate something whenever such a model exists. *)
Definition equals_complete : Prop :=
  forall top_id b,
    attains b -> items (find_models (equals card) top_id b) <> [].

End Optimizer.
End Stutter.

(** ** The prefix automaton *)

(** Modelled from the spec: [dfa_identify.graphs.APTA] is not among the
    sources.  A node is a distinct prefix of an example word together
    with its label; node identifiers are positions in [nodes], which
    lists the prefixes in breadth-first order from the root. *)
Record APTA : Type := {
  nodes : list (Word * option bool);
  alphabet : list Symbol
}.

Fixpoint prefixes (w : Word) : list Word :=
  [] :: match w with
        | [] => []
        | a :: w' => map (cons a) (prefixes w')
        end.

Definition mem_word (w : Word) (l : list Word) : bool :=
  existsb (word_eqb w) l.

Definition mem_symbol (a : Symbol) (l : list Symbol) : bool :=
  existsb (symbol_eqb a) l.

Definition add_word (l : list Word) (w : Word) : list Word :=
  if mem_word w l then l else l ++ [w].

Definition add_symbol (l : list Symbol) (a : Symbol) : list Symbol :=
  if mem_symbol a l then l else l ++ [a].

Definition distinct_prefixes (ws : list Word) : list Word :=
  fold_left add_word (flat_map prefixes ws) [[]].

Definition max_length (ws : list Word) : nat :=
  fold_right (fun w n => Nat.max (length w) n) O ws.

(** Breadth-first order: prefixes by increasing length. *)
Definition bfs_order (ps : list Word) : list Word :=
  flat_map (fun d => filter (fun p => Nat.eqb (length p) d) ps)
           (seq 0 (S (max_length ps))).

Definition node_label (accepting rejecting : list Word) (p : Word) : option bool :=
  if mem_word p accepting then Some true
  else if mem_word p rejecting then Some false
  else None.

Definition symbols_of (ws : list Word) : list Symbol :=
  fold_left add_symbol (concat ws) [].

(** Modelled from the spec: [APTA.from_examples].  The alphabet is the
    supplied one, or else the symbols of the example words. *)
Definition from_examples
    (accepting rejecting : list Word) (alphabet : option (list Symbol)) : APTA :=
  let ps := bfs_order (distinct_prefixes (accepting ++ rejecting)) in
  {| nodes := map (fun p => (p, node_label accepting rejecting p)) ps;
     alphabet := match alphabet with
                 | Some sigma => fold_left add_symbol sigma []
                 | None => symbols_of (accepting ++ rejecting)
                 end |}.

Fixpoint index_of {A} (eqb : A -> A -> bool) (x : A) (l : list A) : option nat :=
  match l with
  | [] => None
  | y :: l' => if eqb x y then Some O
               else match index_of eqb x l' with
                    | Some i => Some (S i)
                    | None => None
                    end
  end.

Definition node_of (apta : APTA) (p : Word) : option nat :=
  index_of word_eqb p (map fst (nodes apta)).

(** The tree edge entering the node of prefix [p]: its parent, the
    symbol read and the node itself. *)
Definition edge_into (apta : APTA) (v : nat) (p : Word)
  : list (nat * Symbol * nat) :=
  match rev p with
  | [] => []
  | a :: q' =>
      match node_of apta (rev q') with
      | Some u => [(u, a, v)]
      | None => []
      end
  end.

Definition edges (apta : APTA) : list (nat * Symbol * nat) :=
  flat_map (fun vp => edge_into apta (fst vp) (fst (snd vp)))
           (combine (seq 0 (length (nodes apta))) (nodes apta)).

(** ** The encoding *)

(** Modelled from the spec: [dfa_identify.encoding] is not among the
    sources.  The semantic variables of a codec, numbered from 1:
    color-is-accepting, node-has-color, transition. *)
Section Variables.

Variable codec : Codec.

Definition K : Z := Z.of_nat (n_colors codec).
Definition N : Z := Z.of_nat (n_nodes codec).
Definition S_ : Z := Z.of_nat (length (symbols codec)).

Definition accepting_var (c : nat) : Z := 1 + Z.of_nat c.

Definition color_var (n c : nat) : Z := 1 + K + Z.of_nat n * K + Z.of_nat c.

Definition transition_var (c1 a c2 : nat) : Z :=
  1 + K + N * K + (Z.of_nat c1 * S_ + Z.of_nat a) * K + Z.of_nat c2.

Definition colors : list nat := seq 0 (n_colors codec).

Definition symbol_ids : list nat := seq 0 (length (symbols codec)).

End Variables.

(** Modelled from the spec: the codec of size [k] for a prefix automaton. *)
Definition make_codec (apta : APTA) (k : nat) : Codec :=
  let n := length (nodes apta) in
  let s := length (alphabet apta) in
  let shell := {| n_nodes := n; n_colors := k; symbols := alphabet apta;
                  max_id := 0; non_stutter_lits := [] |} in
  {| n_nodes := n; n_colors := k; symbols := alphabet apta;
     max_id := Z.of_nat k + Z.of_nat n * Z.of_nat k
               + Z.of_nat k * Z.of_nat s * Z.of_nat k;
     non_stutter_lits :=
       flat_map (fun c1 =>
         flat_map (fun a =>
           flat_map (fun c2 =>
             if Nat.eqb c1 c2 then [] else [transition_var shell c1 a c2])
             (seq 0 k))
           (seq 0 s))
         (seq 0 k) |}.

Section Encoding.

Variable apta : APTA.
Variable codec : Codec.

(** Exactly one of the variables [f c], for [c] a color, is true. *)
Definition exactly_one (f : nat -> Z) : Clauses :=
  map f (colors codec)
  :: flat_map (fun c1 =>
       flat_map (fun c2 =>
         if Nat.ltb c1 c2 then [[- f c1; - f c2]] else [])
         (colors codec))
       (colors codec).

(** Group 1: each node has exactly one color. *)
Definition coloring_clauses : Clauses :=
  flat_map (fun n => exactly_one (color_var codec n))
           (seq 0 (length (nodes apta))).

(** Each (color, symbol) pair has exactly one resulting color. *)
Definition determinism_clauses : Clauses :=
  flat_map (fun c1 =>
    flat_map (fun a => exactly_one (transition_var codec c1 a))
             (symbol_ids codec))
    (colors codec).

(** Group 2: the colors of the two ends of a tree edge force the
    transition between them. *)
Definition edge_clauses : Clauses :=
  flat_map (fun e =>
    match e with
    | (u, a, v) =>
        match index_of symbol_eqb a (symbols codec) with
        | None => []
        | Some i =>
            flat_map (fun c1 =>
              map (fun c2 =>
                [- color_var codec u c1; - color_var codec v c2;
                 transition_var codec c1 i c2])
                (colors codec))
              (colors codec)
        end
    end) (edges apta).

(** Group 3: a labeled node's color is accepting iff the node is. *)
Definition label_clauses : Clauses :=
  flat_map (fun nl =>
    match nl with
    | (n, (_, Some true)) =>
        map (fun c => [- color_var codec n c; accepting_var c]) (colors codec)
    | (n, (_, Some false)) =>
        map (fun c => [- color_var codec n c; - accepting_var c]) (colors codec)
    | (_, (_, None)) => []
    end) (combine (seq 0 (length (nodes apta))) (nodes apta)).

Definition base_clauses : Clauses :=
  coloring_clauses ++ determinism_clauses ++ edge_clauses ++ label_clauses.

End Encoding.

(** ** Decoded automata *)

(** The [dfa.DFA] value: start state, input alphabet, state labeling and
    transition function; [states] lists the colors. *)
Record DFA : Type := {
  start : nat;
  states : list nat;
  inputs : list Symbol;
  accepts : nat -> bool;
  transition : nat -> Symbol -> option nat
}.

(** The state reached from [q] on [w]; [None] when a symbol has no
    transition. *)
Fixpoint run (d : DFA) (q : nat) (w : Word) : option nat :=
  match w with
  | [] => Some q
  | a :: w' =>
      match transition d q a with
      | Some q' => run d q' w'
      | None => None
      end
  end.

(** The membership query [d.label(w)]. *)
Definition label (d : DFA) (w : Word) : option bool :=
  option_map (accepts d) (run d (start d) w).

(** The color marked true among [f c]; color 0 when there is none. *)
Definition pick_color (codec : Codec) (m : Model) (f : nat -> Z) : nat :=
  hd O (filter (fun c => var_true m (f c)) (colors codec)).

(** Modelled from the spec: [Codec.extract_dfa]. *)
Definition extract_dfa (codec : Codec) (m : Model) : DFA :=
  {| start := pick_color codec m (color_var codec 0);
     states := colors codec;
     inputs := symbols codec;
     accepts := fun c => var_true m (accepting_var c);
     transition := fun c a =>
       match index_of symbol_eqb a (symbols codec) with
       | Some i => Some (pick_color codec m (transition_var codec c i))
       | None => None
       end |}.

(** ** The size-iteration driver *)

Definition Bounds : Type := option nat * option nat.

Definition Item : Type := Codec * Model.

(** A drained generator: its events, and how it ended; the ending is
    [None] when the iteration budget ran out first. *)
Definition Gen (A : Type) : Type := list (event A) * option ending.

(** The events of a generator up to its next value. *)
Fixpoint pull {A} (t : list (event A))
  : list (event A) * option (A * list (event A)) :=
  match t with
  | [] => ([], None)
  | Query q :: t' => let (pre, r) := pull t' in (Query q :: pre, r)
  | Yield x :: t' => ([], Some (x, t'))
  end.

(** [more_itertools.roundrobin] on two generators: [cur] is pulled next. *)
Fixpoint roundrobin_from {A} (n : nat) (cur other : Gen A) : Gen A :=
  match n with
  | O => ([], None)
  | S n' =>
      match pull (fst cur) with
      | (pre, Some (x, rest)) =>
          let (t, e) := roundrobin_from n' other (rest, snd cur) in
          (pre ++ Yield x :: t, e)
      | (pre, None) =>
          match snd cur with
          | None => (pre, None)
          | Some (Raised ex) => (pre, Some (Raised ex))
          | Some Stop => (pre ++ fst other, snd other)
          end
      end
  end.

Definition roundrobin {A} (a b : Gen A) : Gen A :=
  roundrobin_from (S (length (items (fst a)) + length (items (fst b)))) a b.

(** Alternation of two sequences, the rest of the longer one at the end. *)
Fixpoint interleave {A} (a b : list A) : list A :=
  match a with
  | [] => b
  | x :: a' =>
      x :: match b with
           | [] => a'
           | y :: b' => y :: interleave a' b'
           end
  end.

(** [next(g, None)]: [None] when the budget ran out before a value,
    the end or an exception was reached. *)
Definition py_next {A} (g : Gen A) : option (result (option A)) :=
  match items (fst g) with
  | x :: _ => Some (Ok (Some x))
  | [] =>
      match snd g with
      | Some Stop => Some (Ok None)
      | Some (Raised e) => Some (Raise e)
      | None => None
      end
  end.

(** [set(accepting) & set(rejecting)] is not empty. *)
Definition contradictory (accepting rejecting : list Word) : bool :=
  existsb (fun w => mem_word w rejecting) accepting.

(** [not alphabet] *)
Definition falsy (alphabet : option (list Symbol)) : bool :=
  match alphabet with
  | None => true
  | Some [] => true
  | Some (_ :: _) => false
  end.

Inductive control : Type :=
| Continue
| Return
| Throw (e : exn).

Section Driver.

Variable solver_fact : SolverFact.
Variable card : CardEnc.

(** The symmetry-breaking policies and the clauses each adds. *)
Variable SymMode : Type.
Variable symmetry_clauses : SymMode -> APTA -> Codec -> Clauses.

Variable sym_mode : SymMode.
Variable extra_clauses : Codec -> Clauses.
Variable bounds : Bounds.
Variable order_by_stutter : bool.

(** The first candidate size: the larger of 1 and the lower bound. *)
Definition first_size : nat :=
  Nat.max 1 (match fst bounds with Some lo => lo | None => 1%nat end).

(** Modelled from the spec: [dfa_id_encodings], as the function from
    positions to the pairs it yields; [None] past the upper bound. *)
Definition dfa_id_encodings
    (apta : APTA) (allow_unminimized : bool) (i : nat)
  : option (Codec * Clauses) :=
  let k := (first_size + i)%nat in
  let codec := make_codec apta k in
  let entry :=
    (codec,
     base_clauses apta codec ++ symmetry_clauses sym_mode apta codec
       ++ extra_clauses codec) in
  match snd bounds with
  | Some hi => if Nat.ltb hi k then None else Some entry
  | None => Some entry
  end.

(** Whether the oracle finds the clauses at position [i] satisfiable. *)
Definition satisfiable_at
    (encodings : nat -> option (Codec * Clauses)) (i : nat) : bool :=
  match encodings i with
  | Some (_, clauses) => solve solver_fact clauses
  | None => false
  end.

(** All the models the oracle enumerates at position [i], each paired
    with the codec of that position. *)
Definition models_at
    (encodings : nat -> option (Codec * Clauses)) (i : nat) : list Item :=
  match encodings i with
  | Some (codec, clauses) =>
      if solve solver_fact clauses
      then map (pair codec) (enum_models solver_fact clauses)
      else []
  | None => []
  end.

(** The clause set at position [i]. *)
Definition clauses_at
    (encodings : nat -> option (Codec * Clauses)) (i : nat) : Clauses :=
  match encodings i with
  | Some (_, clauses) => clauses
  | None => []
  end.

(** The models the stutter optimizer emits at position [i], run on the
    model [get_model] returns, each paired with the codec of that
    position. *)
Definition stutter_models_at
    (fuel : nat) (encodings : nat -> option (Codec * Clauses)) (i : nat)
  : list Item :=
  match encodings i with
  | Some (codec, clauses) =>
      if solve solver_fact clauses
      then map (pair codec)
             (items (fst (Stutter.order_models_by_stutter
                            solver_fact card codec clauses fuel
                            (get_model solver_fact clauses))))
      else []
  | None => []
  end.

Definition after_models (allow_unminimized : bool) : control :=
  if allow_unminimized then Continue else Return.

(** One pass through the body of [for codec, clauses in encodings]. *)
Definition loop_body
    (fuel : nat) (allow_unminimized : bool) (codec : Codec) (clauses : Clauses)
  : list (event Item) * option control :=
  if negb (solve solver_fact clauses) then ([Query clauses], Some Continue)
  else if negb order_by_stutter then
    (Query clauses
       :: map (fun m => Yield (codec, m)) (enum_models solver_fact clauses),
     Some (after_models allow_unminimized))
  else
    let model := get_model solver_fact clauses in
    let (t, e) :=
      Stutter.order_models_by_stutter solver_fact card codec clauses fuel model in
    (Query clauses :: map (map_event (pair codec)) t,
     match e with
     | None => None
     | Some Stop => Some (after_models allow_unminimized)
     | Some (Raised ex) => Some (Throw ex)
     end).

(** The [for] loop from position [i] on, for at most [fuel] passes. *)
Fixpoint loop
    (fuel : nat) (encodings : nat -> option (Codec * Clauses))
    (allow_unminimized : bool) (i : nat) {struct fuel} : Gen Item :=
  match fuel with
  | O => ([], None)
  | S fuel' =>
      match encodings i with
      | None => ([], Some Stop)
      | Some (codec, clauses) =>
          match loop_body fuel' allow_unminimized codec clauses with
          | (t, None) => (t, None)
          | (t, Some (Throw ex)) => (t, Some (Raised ex))
          | (t, Some Return) => (t, Some Stop)
          | (t, Some Continue) =>
              let (t', e) := loop fuel' encodings allow_unminimized (S i) in
              (t ++ t', e)
          end
      end
  end.

Fixpoint find_models
    (fuel : nat) (accepting rejecting : list Word)
    (alphabet : option (list Symbol)) (allow_unminimized : bool)
    {struct fuel} : Gen Item :=
  match fuel with
  | O => ([], None)
  | S fuel' =>
      if contradictory accepting rejecting then ([], Some Stop)
      else if (Nat.eqb (length accepting) (length rejecting))
                && (Nat.eqb (length rejecting) 0) then
        if falsy alphabet then ([], Some (Raised ValueError))
        else
          let models_pos :=
            find_models fuel' [[]] [] alphabet allow_unminimized in
          let models_neg :=
            find_models fuel' [] [[]] alphabet allow_unminimized in
          roundrobin models_pos models_neg
      else
        let apta := from_examples accepting rejecting alphabet in
        let encodings := dfa_id_encodings apta allow_unminimized in
        loop fuel' encodings allow_unminimized 0
  end.

Definition find_dfas
    (fuel : nat) (accepting rejecting : list Word)
    (alphabet : option (list Symbol)) (allow_unminimized : bool) : Gen DFA :=
  let models := find_models fuel accepting rejecting alphabet allow_unminimized in
  (map (map_event (fun cm => extract_dfa (fst cm) (snd cm))) (fst models),
   snd models).

Definition find_dfa
    (fuel : nat) (accepting rejecting : list Word)
    (alphabet : option (list Symbol)) : option (result (option DFA)) :=
  let all_dfas := find_dfas fuel accepting rejecting alphabet false in
  py_next all_dfas.

End Driver.

(** ** A reference oracle and a reference cardinality encoder

    Exhaustive enumeration over the variables of the query, and
    cardinality constraints without auxiliary variables.  They show that
    the contracts assumed of the collaborators below can be met. *)

Module Reference.

(** All models over the variables [1..n]. *)
Fixpoint assignments (n : nat) : list Model :=
  match n with
  | O => [[]]
  | S n' =>
      flat_map (fun m => [m ++ [- Z.of_nat n]; m ++ [Z.of_nat n]])
               (assignments n')
  end.

Definition clause_vars (c : Clause) : Z :=
  fold_right (fun l a => Z.max (Z.max (Z.abs l) 1) a) 0 c.

Definition num_vars (q : Clauses) : nat :=
  Z.to_nat (fold_right (fun c a => Z.max (clause_vars c) a) 0 q).

Definition all_models (q : Clauses) : list Model :=
  filter (fun m => satisfies m q) (assignments (num_vars q)).

Definition solver : SolverFact :=
  {| solve := fun q => match all_models q with [] => false | _ => true end;
     get_model := fun q => hd [] (all_models q);
     enum_models := all_models |}.

(** The sublists of [l] with [k] elements. *)
Fixpoint choose (k : nat) (l : list Z) : list (list Z) :=
  match k, l with
  | O, _ => [[]]
  | S _, [] => []
  | S k', x :: r => map (cons x) (choose k' r) ++ choose k r
  end.

(** At most [bound] of [lits] are true: of any [bound + 1], one is false. *)
Definition at_most (lits : list Z) (bound : Z) : Clauses :=
  if bound <? 0 then [[]]
  else map (map Z.opp) (choose (S (Z.to_nat bound)) lits).

(** At least [bound] of [lits] are true: of any [len - bound + 1], one
    is true. *)
Definition at_least (lits : list Z) (bound : Z) : Clauses :=
  if bound <=? 0 then []
  else if Z.of_nat (length lits) <? bound then [[]]
  else choose (S (length lits - Z.to_nat bound)) lits.

Definition card : CardEnc :=
  {| atmost := fun lits bound _ => at_most lits bound;
     equals := fun lits bound _ => at_most lits bound ++ at_least lits bound |}.

(** The model over [1..n] with the truth values of [m]. *)
Fixpoint canon (n : nat) (m : Model) : Model :=
  match n with
  | O => []
  | S n' =>
      canon n' m ++ [if nth n' m 0 >? 0 then Z.of_nat n else - Z.of_nat n]
  end.

Definition agree (n : nat) (m m' : Model) : Prop :=
  forall i, (i < n)%nat -> (nth i m 0 >? 0) = (nth i m' 0 >? 0).

(** The number of [ls] true in [m]. *)
Definition trues (m : Model) (ls : list Z) : nat :=
  length (filter (var_true m) ls).

End Reference.

(** ** A worked instance

    One accepted word ["a"] and the rejected empty word: no automaton with
    one state, four encodings of the automaton with two. *)

Module Example.

Definition sym_a : Symbol := SymStr "a".
Definition accepting : list Word := [[sym_a]].
Definition rejecting : list Word := [[]].
Definition apta : APTA := from_examples accepting rejecting None.
Definition codec : Codec := make_codec apta 2.
Definition clauses : Clauses := base_clauses apta codec.

(** A model of [clauses] in which both non-stutter transitions are taken. *)
Definition model : Model := [-1; 2; 3; -4; -5; 6; -7; 8; 9; -10].

Definition no_symmetry (_ : unit) (_ : APTA) (_ : Codec) : Clauses := [].
Definition no_extra (_ : Codec) : Clauses := [].

End Example.

(** ** An instance with an unreachable state

    One accepted word ["a"], nothing rejected, two states asked for:
    some two-state automata consistent with it only loop. *)

Module Unreachable.

Definition accepting : list Word := [[Example.sym_a]].
Definition rejecting : list Word := [].
Definition apta : APTA := from_examples accepting rejecting None.
Definition codec : Codec := make_codec apta 2.
Definition clauses : Clauses := base_clauses apta codec.

(** The model the reference oracle finds first: one non-stutter
    transition. *)
Definition model : Model := [-1; 2; -3; 4; -5; 6; -7; 8; -9; 10].

(** A model without non-stutter transitions. *)
Definition loops : Model := [-1; 2; -3; 4; -5; 6; 7; -8; -9; 10].

End Unreachable.

(** ** The scenarios of the test-suite

    A checking oracle: it has a fixed list of candidate models and
    enumerates those that satisfy the query. *)

Module Checking.

Definition solver (candidates : list Model) : SolverFact :=
  {| solve := fun q => existsb (fun m => satisfies m q) candidates;
     get_model := fun q => hd [] (filter (fun m => satisfies m q) candidates);
     enum_models := fun q => filter (fun m => satisfies m q) candidates |}.

End Checking.

(** An oracle out of contract: whatever the query, it answers with one
    fixed model. *)

Module Stubborn.

Definition solver (m : Model) : SolverFact :=
  {| solve := fun _ => true;
     get_model := fun _ => m;
     enum_models := fun _ => [m] |}.

End Stubborn.

(** [test_identify]: the words over two symbols [a] and [b] that the test
    accepts and rejects, and the encoding of a three-state automaton for
    them. *)

Module Scenario.

Definition accepting (a b : Symbol) : list Word := [[a]; [a; b; a; a]; [b; b]].
Definition rejecting (a b : Symbol) : list Word := [[a; b; b]; [b]].

Definition codec (a b : Symbol) : Codec :=
  make_codec (from_examples (accepting a b) (rejecting a b) None) 3.

(** State 1 accepts; the prefixes in breadth-first order are colored
    0 1 2 0 1 1 2 1; the transitions are 0-a->1, 0-b->2, 1-a->1, 1-b->0,
    2-a->2, 2-b->1. *)
Definition true_vars (a b : Symbol) : list Z :=
  accepting_var 1
  :: map (fun nc => color_var (codec a b) (fst nc) (snd nc))
         [(0, 0); (1, 1); (2, 2); (3, 0); (4, 1); (5, 1); (6, 2); (7, 1)]%nat
  ++ map (fun t => transition_var (codec a b) (fst (fst t)) (snd (fst t)) (snd t))
         [(0, 0, 1); (0, 1, 2); (1, 0, 1); (1, 1, 0); (2, 0, 2); (2, 1, 1)]%nat.

Definition model (a b : Symbol) : Model :=
  map (fun i => let v := Z.of_nat i in
                if existsb (Z.eqb v) (true_vars a b) then v else - v)
      (seq 1 (Z.to_nat (max_id (codec a b)))).

End Scenario.

(** * Properties *)

(** ** Equality tests *)

Lemma symbol_eqb_eq (a b : Symbol) : symbol_eqb a b = true <-> a = b.
Proof.
  destruct a as [x|x], b as [y|y]; simpl.
  - rewrite Z.eqb_eq. split; congruence.
  - split; discriminate.
  - split; discriminate.
  - rewrite String.eqb_eq. split; congruence.
Qed.

Lemma word_eqb_eq (u v : Word) : word_eqb u v = true <-> u = v.
Proof.
  revert v. induction u as [|a u IH]; intros [|b v]; simpl;
    try (split; (discriminate || reflexivity)).
  rewrite andb_true_iff, symbol_eqb_eq, IH. split.
  - intros [-> ->]. reflexivity.
  - intros E. inversion E. auto.
Qed.

Lemma mem_word_In (w : Word) (l : list Word) : mem_word w l = true <-> In w l.
Proof.
  unfold mem_word. rewrite existsb_exists. split.
  - intros (x & Hx & E). apply word_eqb_eq in E. subst. exact Hx.
  - intros H. exists w. split; [exact H | now apply word_eqb_eq].
Qed.

Lemma mem_symbol_In (a : Symbol) (l : list Symbol) :
  mem_symbol a l = true <-> In a l.
Proof.
  unfold mem_symbol. rewrite existsb_exists. split.
  - intros (x & Hx & E). apply symbol_eqb_eq in E. subst. exact Hx.
  - intros H. exists a. split; [exact H | now apply symbol_eqb_eq].
Qed.

Lemma contradictory_iff (accepting rejecting : list Word) :
  contradictory accepting rejecting = true
  <-> exists w, In w accepting /\ In w rejecting.
Proof.
  unfold contradictory. rewrite existsb_exists.
  split; intros (w & H1 & H2); exists w; split; auto; now apply mem_word_In.
Qed.

(** ** Traces *)

Lemma items_app {A} (s t : list (event A)) : items (s ++ t) = items s ++ items t.
Proof.
  induction s as [|[q|x] s IH]; simpl; auto. now rewrite IH.
Qed.

Lemma queries_app {A} (s t : list (event A)) :
  queries (s ++ t) = queries s ++ queries t.
Proof.
  induction s as [|[q|x] s IH]; simpl; auto. now rewrite IH.
Qed.

Lemma items_map_Yield {A} (l : list A) : items (map Yield l) = l.
Proof. induction l; simpl; congruence. Qed.

Lemma items_map_Yield_with {A B} (f : B -> A) (l : list B) :
  items (map (fun x => Yield (f x)) l) = map f l.
Proof. induction l; simpl; congruence. Qed.

Lemma items_map_Query {A} (qs : list Clauses) : items (map (@Query A) qs) = [].
Proof. induction qs; simpl; auto. Qed.

Lemma items_map_event {A B} (f : A -> B) (t : list (event A)) :
  items (map (map_event f) t) = map f (items t).
Proof.
  induction t as [|[q|x] t IH]; simpl; auto. now rewrite IH.
Qed.

Lemma queries_map_event {A B} (f : A -> B) (t : list (event A)) :
  queries (map (map_event f) t) = queries t.
Proof.
  induction t as [|[q|x] t IH]; simpl; auto. now rewrite IH.
Qed.

(** ** Early exits of the driver *)

Section DriverFacts.

Variable solver_fact : SolverFact.
Variable card : CardEnc.
Variable SymMode : Type.
Variable symmetry_clauses : SymMode -> APTA -> Codec -> Clauses.
Variable sym_mode : SymMode.
Variable extra_clauses : Codec -> Clauses.
Variable bounds : Bounds.
Variable order_by_stutter : bool.

(** C4. A word that occurs in both example sets makes [find_models] and
    [find_dfas] end at once: nothing is yielded, nothing is raised, no
    oracle session is opened; [find_dfa] returns [None]. *)
Theorem contradictory_examples_empty
    (fuel : nat) (accepting rejecting : list Word)
    (alphabet : option (list Symbol)) (allow_unminimized : bool) (w : Word) :
  In w accepting -> In w rejecting ->
  find_models solver_fact card SymMode symmetry_clauses sym_mode
       extra_clauses bounds order_by_stutter
       (S fuel) accepting rejecting alphabet allow_unminimized
    = ([], Some Stop)
  /\ find_dfas solver_fact card SymMode symmetry_clauses sym_mode
       extra_clauses bounds order_by_stutter
       (S fuel) accepting rejecting alphabet allow_unminimized
    = ([], Some Stop)
  /\ queries (fst (find_models solver_fact card SymMode symmetry_clauses sym_mode
       extra_clauses bounds order_by_stutter
       (S fuel) accepting rejecting alphabet allow_unminimized)) = []
  /\ find_dfa solver_fact card SymMode symmetry_clauses sym_mode
       extra_clauses bounds order_by_stutter
       (S fuel) accepting rejecting alphabet
    = Some (Ok None).
Proof.
  intros Ha Hr.
  assert (C : contradictory accepting rejecting = true)
    by (apply contradictory_iff; exists w; auto).
  assert (E : forall allow,
             find_models solver_fact card SymMode symmetry_clauses sym_mode
       extra_clauses bounds order_by_stutter
               (S fuel) accepting rejecting alphabet allow
             = ([], Some Stop)).
  { intros allow. simpl. now rewrite C. }
  repeat split.
  - apply E.
  - unfold find_dfas. now rewrite E.
  - now rewrite E.
  - unfold find_dfa, find_dfas. now rewrite E.
Qed.

(** C5. With no examples and no alphabet the generator raises
    [ValueError] when first advanced, so [find_dfa] raises it too. *)
Theorem missing_specification_raises (fuel : nat) (allow_unminimized : bool) :
  find_models solver_fact card SymMode symmetry_clauses sym_mode
       extra_clauses bounds order_by_stutter
       (S fuel) [] [] None allow_unminimized
    = ([], Some (Raised ValueError))
  /\ find_dfas solver_fact card SymMode symmetry_clauses sym_mode
       extra_clauses bounds order_by_stutter
       (S fuel) [] [] None allow_unminimized
    = ([], Some (Raised ValueError))
  /\ find_dfa solver_fact card SymMode symmetry_clauses sym_mode
       extra_clauses bounds order_by_stutter
       (S fuel) [] [] None
    = Some (Raise ValueError).
Proof. repeat split. Qed.

(** C9. An empty alphabet is falsy: with no examples it is treated as
    no alphabet at all, and [ValueError] is raised instead of the
    interleaving of the two conjectures. *)
Theorem empty_alphabet_raises (fuel : nat) (allow_unminimized : bool) :
  falsy (Some []) = falsy None
  /\ find_models solver_fact card SymMode symmetry_clauses sym_mode
       extra_clauses bounds order_by_stutter
       (S fuel) [] [] (Some []) allow_unminimized
    = find_models solver_fact card SymMode symmetry_clauses sym_mode
       extra_clauses bounds order_by_stutter
       (S fuel) [] [] None allow_unminimized
  /\ find_models solver_fact card SymMode symmetry_clauses sym_mode
       extra_clauses bounds order_by_stutter
       (S fuel) [] [] (Some []) allow_unminimized
    = ([], Some (Raised ValueError))
  /\ find_dfa solver_fact card SymMode symmetry_clauses sym_mode
       extra_clauses bounds order_by_stutter
       (S fuel) [] [] (Some [])
    = Some (Raise ValueError).
Proof. repeat split. Qed.

(** C8. [find_dfa] returns the first automaton of [find_dfas] run on
    the same arguments, and [None] when [find_dfas] ends without one; an
    exception raised before the first automaton is passed on. *)
Theorem find_dfa_first_of_find_dfas
    (fuel : nat) (accepting rejecting : list Word)
    (alphabet : option (list Symbol)) :
  (forall d rest,
     items (fst (find_dfas solver_fact card SymMode symmetry_clauses sym_mode
       extra_clauses bounds order_by_stutter
       fuel accepting rejecting alphabet false))
       = d :: rest ->
     find_dfa solver_fact card SymMode symmetry_clauses sym_mode
       extra_clauses bounds order_by_stutter
       fuel accepting rejecting alphabet
     = Some (Ok (Some d)))
  /\ (items (fst (find_dfas solver_fact card SymMode symmetry_clauses sym_mode
       extra_clauses bounds order_by_stutter
       fuel accepting rejecting alphabet false)) = [] ->
      snd (find_dfas solver_fact card SymMode symmetry_clauses sym_mode
       extra_clauses bounds order_by_stutter
       fuel accepting rejecting alphabet false) = Some Stop ->
      find_dfa solver_fact card SymMode symmetry_clauses sym_mode
       extra_clauses bounds order_by_stutter
       fuel accepting rejecting alphabet
      = Some (Ok None))
  /\ (forall ex,
        items (fst (find_dfas solver_fact card SymMode symmetry_clauses sym_mode
       extra_clauses bounds order_by_stutter
       fuel accepting rejecting alphabet false)) = [] ->
        snd (find_dfas solver_fact card SymMode symmetry_clauses sym_mode
       extra_clauses bounds order_by_stutter
       fuel accepting rejecting alphabet false) = Some (Raised ex) ->
        find_dfa solver_fact card SymMode symmetry_clauses sym_mode
       extra_clauses bounds order_by_stutter
       fuel accepting rejecting alphabet
        = Some (Raise ex)).
Proof.
  unfold find_dfa, py_next. split; [|split].
  - intros d rest E. now rewrite E.
  - intros E S. now rewrite E, S.
  - intros ex E S. now rewrite E, S.
Qed.

End DriverFacts.

(** ** The binary search of the stutter optimizer *)

Section SearchFacts.

Variable solver_fact : SolverFact.
Variable card : CardEnc.
Variable codec : Codec.
Variable clauses : Clauses.

Local Abbreviation search_step' := (Stutter.search_step solver_fact card codec clauses).
Local Abbreviation search' := (Stutter.search solver_fact card codec clauses).
Local Abbreviation first_model' := (Stutter.first_model solver_fact codec clauses).
Local Abbreviation non_stutter_count' := (Stutter.non_stutter_count codec).
Local Abbreviation attains := (Stutter.attains codec clauses).
Local Abbreviation minimum := (Stutter.minimum codec clauses).

Lemma midpoint_between (lo hi : Z) : lo < hi -> lo <= (lo + hi) / 2 < hi.
Proof.
  intros H. split.
  - apply Z.div_le_lower_bound; lia.
  - apply Z.div_lt_upper_bound; lia.
Qed.

(** A pass either raises [lo] or lowers [hi], strictly. *)
Lemma search_step_progress (top_id lo hi lo' hi' : Z) :
  lo < hi ->
  search_step' top_id lo hi = Ok (lo', hi') ->
  (lo < lo' /\ hi' = hi) \/ (lo' = lo /\ hi' < hi).
Proof.
  intros Hlt. pose proof (midpoint_between lo hi Hlt) as Hm.
  unfold Stutter.search_step.
  destruct (Stutter.first_model _ _ _ _ _ _) as [w|].
  - destruct (Stutter.non_stutter_count codec w) as [c|e]; simpl; [|discriminate].
    destruct (c <=? (lo + hi) / 2) eqn:E; [|discriminate].
    apply Z.leb_le in E. intros [= <- <-]. right. lia.
  - intros [= <- <-]. left. lia.
Qed.

Lemma search_enough_fuel (top_id : Z) (fuel : nat) :
  forall lo hi, hi - lo <= Z.of_nat fuel ->
  exists qs r,
    search' fuel top_id lo hi = Some (qs, r)
    /\ Z.of_nat (length qs) <= Z.max 0 (hi - lo)
    /\ (forall lo' hi', r = Ok (lo', hi') ->
          lo <= lo' /\ hi' <= hi /\ hi' <= lo').
Proof.
  induction fuel as [|fuel IH]; intros lo hi Hf.
  - simpl. destruct (lo <? hi) eqn:E.
    + apply Z.ltb_lt in E. lia.
    + apply Z.ltb_ge in E. exists [], (Ok (lo, hi)). simpl.
      repeat split; try lia; injection H as <- <-; lia.
  - simpl. destruct (lo <? hi) eqn:E.
    + apply Z.ltb_lt in E.
      destruct (search_step' top_id lo hi) as [[lo1 hi1]|e] eqn:Es.
      * assert (P : lo <= lo1 /\ hi1 <= hi /\ hi1 - lo1 < hi - lo)
          by (destruct (search_step_progress _ _ _ _ _ E Es) as [[? ?]|[? ?]]; lia).
        destruct (IH lo1 hi1) as (qs & r & Hs & Hl & Hr); [lia|].
        rewrite Hs. exists (Stutter.formula_query codec clauses (atmost card)
                              top_id ((lo + hi) / 2) :: qs), r.
        split; [reflexivity|]. split; [simpl length; lia|].
        intros lo' hi' Er. destruct (Hr _ _ Er) as (? & ? & ?). lia.
      * exists [Stutter.formula_query codec clauses (atmost card) top_id
                  ((lo + hi) / 2)], (Raise e).
        simpl. repeat split; try lia; discriminate.
    + apply Z.ltb_ge in E. exists [], (Ok (lo, hi)). simpl.
      repeat split; try lia; injection H as <- <-; lia.
Qed.

(** With sessions that answer for the clause set and no model below
    [lo], the bounds never cross: the loop exits with [lo = hi]. *)
Lemma search_meets (top_id : Z) :
  Stutter.atmost_contract solver_fact card codec clauses ->
  forall fuel lo hi qs lo' hi',
    lo <= hi ->
    (forall c, attains c -> lo <= c) ->
    search' fuel top_id lo hi = Some (qs, Ok (lo', hi')) ->
    lo' = hi'.
Proof.
  intros Hat. induction fuel as [|fuel IH]; intros lo hi qs lo' hi' Hle Hlo;
    simpl.
  - destruct (lo <? hi) eqn:E; [discriminate|]. apply Z.ltb_ge in E.
    intros [= <- <- <-]. lia.
  - destruct (lo <? hi) eqn:E;
      [|apply Z.ltb_ge in E; intros [= <- <- <-]; lia].
    apply Z.ltb_lt in E. pose proof (midpoint_between lo hi E) as Hmid.
    destruct (search_step' top_id lo hi) as [[lo1 hi1]|e] eqn:Es;
      [|discriminate].
    destruct (search' fuel top_id lo1 hi1) as [[qs1 r1]|] eqn:Er;
      [|discriminate].
    intros [= <- ->]. revert Es. unfold Stutter.search_step.
    destruct (first_model' (atmost card) top_id ((lo + hi) / 2)) as [w|] eqn:Ew.
    + destruct (non_stutter_count' w) as [c|] eqn:Ec; simpl; [|discriminate].
      destruct (c <=? _); [|discriminate]. intros [= <- <-].
      apply (IH lo c qs1 lo' hi'); auto. apply Hlo. exists w.
      split; [apply (proj1 (Hat top_id ((lo + hi) / 2))); exact Ew | exact Ec].
    + intros [= <- <-]. apply (IH ((lo + hi) / 2 + 1) hi qs1 lo' hi'); auto.
      * lia.
      * intros c Hc.
        pose proof (proj2 (Hat top_id ((lo + hi) / 2)) Ew c Hc). lia.
Qed.

(** A witness with fewer non-stutter transitions than [lo] ends the loop
    at once, with [hi] below [lo]. *)
Lemma search_exit_below (top_id lo hi : Z) (w : Model) (c : Z) (fuel : nat) :
  lo < hi ->
  first_model' (atmost card) top_id ((lo + hi) / 2) = Some w ->
  non_stutter_count' w = Ok c ->
  c < lo ->
  search' (S fuel) top_id lo hi
  = Some ([Stutter.formula_query codec clauses (atmost card) top_id
             ((lo + hi) / 2)],
          Ok (lo, c)).
Proof.
  intros Hlt Ew Ec Hc. pose proof (midpoint_between lo hi Hlt) as Hmid.
  cbn [Stutter.search]. apply Z.ltb_lt in Hlt. rewrite Hlt.
  unfold Stutter.search_step. rewrite Ew, Ec. cbn [bind].
  replace (c <=? (lo + hi) / 2) with true by (symmetry; apply Z.leb_le; lia).
  replace (Stutter.search solver_fact card codec clauses fuel top_id lo c)
    with (Some (@nil Clauses, Ok (lo, c))); [reflexivity|].
  destruct fuel; simpl;
    replace (lo <? c) with false by (symmetry; apply Z.ltb_ge; lia);
    reflexivity.
Qed.

(** C10, as amended. The binary search ends: from [lo <= hi], [hi - lo]
    passes are enough, each pass strictly raises [lo] or strictly lowers
    [hi], and on a normal exit the loop condition has failed, [hi <= lo].
    The bounds meet, [lo = hi], when the at-most sessions answer for the
    clause set and no model has fewer non-stutter transitions than [lo];
    a witness with fewer than [lo] ends the loop with [hi] below [lo]. *)
Theorem search_terminates (top_id lo hi : Z) :
  lo <= hi ->
  (exists qs r,
      Stutter.search solver_fact card codec clauses
                     (Z.to_nat (hi - lo)) top_id lo hi = Some (qs, r)
      /\ Z.of_nat (length qs) <= hi - lo
      /\ (forall lo' hi', r = Ok (lo', hi') ->
            lo <= lo' /\ hi' <= hi /\ hi' <= lo'))
  /\ (forall lo' hi',
        lo < hi ->
        Stutter.search_step solver_fact card codec clauses top_id lo hi
          = Ok (lo', hi') ->
        (lo < lo' /\ hi' = hi) \/ (lo' = lo /\ hi' < hi))
  /\ (Stutter.atmost_contract solver_fact card codec clauses ->
      (forall c, Stutter.attains codec clauses c -> lo <= c) ->
      forall fuel qs lo' hi',
        Stutter.search solver_fact card codec clauses fuel top_id lo hi
        = Some (qs, Ok (lo', hi')) ->
        lo' = hi')
  /\ (forall w c fuel,
        lo < hi ->
        Stutter.first_model solver_fact codec clauses (atmost card) top_id
          ((lo + hi) / 2) = Some w ->
        Stutter.non_stutter_count codec w = Ok c ->
        c < lo ->
        Stutter.search solver_fact card codec clauses (S fuel) top_id lo hi
        = Some ([Stutter.formula_query codec clauses (atmost card) top_id
                   ((lo + hi) / 2)],
                Ok (lo, c))).
Proof.
  intros H. split; [|split; [|split]].
  - destruct (search_enough_fuel top_id (Z.to_nat (hi - lo)) lo hi)
      as (qs & r & Hs & Hl & Hr); [lia|].
    exists qs, r. repeat split; auto; try lia; apply (Hr _ _ H0).
  - intros lo' hi' Hlt Hs. eapply search_step_progress; eauto.
  - intros Hat Hlow fuel qs lo' hi' Hs.
    eapply (search_meets top_id Hat); eauto.
  - intros w c fuel Hlt Ew Ec Hc. now apply (search_exit_below top_id lo hi w).
Qed.

(** *** What the search finds *)

Section Contract.

Variable top_id : Z.

(** The at-most sessions answer for the clause set: a witness is a model
    of it, and no witness means no model within the bound. *)
Hypothesis atmost_sound :
  forall b w, first_model' (atmost card) top_id b = Some w ->
              satisfies w clauses = true.
Hypothesis atmost_complete :
  forall b, first_model' (atmost card) top_id b = None ->
            forall c, attains c -> b < c.

Lemma search_invariant (fuel : nat) :
  forall lo hi qs lo' hi',
    (forall c, attains c -> lo <= c) -> attains hi ->
    search' fuel top_id lo hi = Some (qs, Ok (lo', hi')) ->
    lo' = hi' /\ minimum lo'.
Proof.
  induction fuel as [|fuel IH]; intros lo hi qs lo' hi' Hlo Hhi; simpl.
  - destruct (lo <? hi) eqn:E; [discriminate|]. apply Z.ltb_ge in E.
    intros [= <- <- <-]. pose proof (Hlo _ Hhi).
    assert (lo = hi) by lia. subst. repeat split; auto.
  - destruct (lo <? hi) eqn:E.
    + destruct (search_step' top_id lo hi) as [[lo1 hi1]|e] eqn:Es;
        [|discriminate].
      destruct (search' fuel top_id lo1 hi1) as [[qs1 r1]|] eqn:Er;
        [|discriminate].
      intros [= <- ->]. apply (IH lo1 hi1 qs1 lo' hi'); auto.
      * revert Es. unfold Stutter.search_step.
        destruct (first_model' (atmost card) top_id ((lo + hi) / 2)) as [w|] eqn:Ew.
        -- destruct (non_stutter_count' w) as [c|]; simpl; [|discriminate].
           destruct (c <=? _); [|discriminate]. intros [= <- <-]. exact Hlo.
        -- intros [= <- <-] c Hc.
           pose proof (atmost_complete _ Ew c Hc). lia.
      * revert Es. unfold Stutter.search_step.
        destruct (first_model' (atmost card) top_id ((lo + hi) / 2)) as [w|] eqn:Ew.
        -- destruct (non_stutter_count' w) as [c|] eqn:Ec; simpl; [|discriminate].
           destruct (c <=? _); [|discriminate]. intros [= <- <-].
           exists w. split; [eapply atmost_sound; eauto | exact Ec].
        -- intros [= <- <-]. exact Hhi.
    + apply Z.ltb_ge in E. intros [= <- <- <-]. pose proof (Hlo _ Hhi).
      assert (lo = hi) by lia. subst. repeat split; auto.
Qed.

End Contract.

Local Abbreviation find_card_models := (Stutter.find_models solver_fact codec clauses).
Local Abbreviation sweep' := (Stutter.sweep solver_fact card codec clauses).
Local Abbreviation order_models_by_stutter' :=
  (Stutter.order_models_by_stutter solver_fact card codec clauses).
Local Abbreviation atmost_contract := (Stutter.atmost_contract solver_fact card codec clauses).
Local Abbreviation equals_exact := (Stutter.equals_exact solver_fact card codec clauses).
Local Abbreviation equals_complete := (Stutter.equals_complete solver_fact card codec clauses).

(** With witnesses within their bound no pass raises. *)
Lemma search_no_raise (top_id : Z) :
  Stutter.atmost_bounded solver_fact card codec clauses ->
  forall fuel lo hi qs r,
    search' fuel top_id lo hi = Some (qs, r) ->
    exists lo' hi', r = Ok (lo', hi').
Proof.
  intros Hb. induction fuel as [|fuel IH]; intros lo hi qs r; simpl.
  - destruct (lo <? hi); [discriminate|]. intros [= <- <-]. eauto.
  - destruct (lo <? hi); [|intros [= <- <-]; eauto].
    assert (Hs : exists lo1 hi1, search_step' top_id lo hi = Ok (lo1, hi1)).
    { unfold Stutter.search_step.
      destruct (first_model' (atmost card) top_id ((lo + hi) / 2)) as [w|] eqn:Ew;
        [|eauto].
      destruct (Hb _ _ _ Ew) as (c & -> & Hc). simpl.
      apply Z.leb_le in Hc. rewrite Hc. eauto. }
    destruct Hs as (lo1 & hi1 & ->).
    destruct (search' fuel top_id lo1 hi1) as [[qs1 r1]|] eqn:Er;
      [|discriminate].
    intros [= <- <-]. eapply IH; eauto.
Qed.

(** C6. The search starts from [lo = n_colors - 1] and the count of the
    given model; a pass with a witness lowers [hi] to the witness's own
    count, a pass without one raises [lo] past the midpoint; when the
    loop exits normally, [lo = hi] is the least count among the models of
    the clause set; and it does exit normally, within [hi - lo] passes,
    when the witnesses stay within their bounds. *)
Theorem search_finds_minimum (top_id : Z) (model : Model) (hi : Z) :
  Stutter.atmost_contract solver_fact card codec clauses ->
  (forall c, Stutter.attains codec clauses c ->
             Z.of_nat (n_colors codec) - 1 <= c) ->
  satisfies model clauses = true ->
  Stutter.non_stutter_count codec model = Ok hi ->
  (forall fuel qs lo' hi',
     Stutter.search solver_fact card codec clauses
       fuel top_id (Z.of_nat (n_colors codec) - 1) hi
     = Some (qs, Ok (lo', hi')) ->
     lo' = hi' /\ Stutter.minimum codec clauses lo')
  /\ (Stutter.atmost_bounded solver_fact card codec clauses ->
      exists qs lo',
        Stutter.search solver_fact card codec clauses
          (Z.to_nat (hi - (Z.of_nat (n_colors codec) - 1)))
          top_id (Z.of_nat (n_colors codec) - 1) hi
        = Some (qs, Ok (lo', lo'))
        /\ Stutter.minimum codec clauses lo')
  /\ (forall lo1 hi1 w c,
        Stutter.first_model solver_fact codec clauses (atmost card) top_id
          ((lo1 + hi1) / 2) = Some w ->
        Stutter.non_stutter_count codec w = Ok c -> c <= (lo1 + hi1) / 2 ->
        Stutter.search_step solver_fact card codec clauses top_id lo1 hi1
        = Ok (lo1, c))
  /\ (forall lo1 hi1,
        Stutter.first_model solver_fact codec clauses (atmost card) top_id
          ((lo1 + hi1) / 2) = None ->
        Stutter.search_step solver_fact card codec clauses top_id lo1 hi1
        = Ok ((lo1 + hi1) / 2 + 1, hi1)).
Proof.
  intros Hc Hlow Hm Hhi.
  assert (Exit : forall fuel qs lo' hi',
             search' fuel top_id (Z.of_nat (n_colors codec) - 1) hi
             = Some (qs, Ok (lo', hi')) ->
             lo' = hi' /\ minimum lo').
  { intros fuel qs lo' hi' Hs.
    eapply (search_invariant top_id); try exact Hs.
    - intros b w. apply (Hc top_id b).
    - intros b. apply (Hc top_id b).
    - exact Hlow.
    - exists model. auto. }
  split; [exact Exit|]. split; [|split].
  - intros Hb.
    destruct (search_enough_fuel top_id
                (Z.to_nat (hi - (Z.of_nat (n_colors codec) - 1)))
                (Z.of_nat (n_colors codec) - 1) hi ltac:(lia))
      as (qs & r & Hs & _).
    destruct (search_no_raise top_id Hb _ _ _ _ _ Hs) as (lo' & hi' & ->).
    destruct (Exit _ _ _ _ Hs) as [<- Hmin]. exists qs, lo'. auto.
  - intros lo1 hi1 w c Ew Ec Hle. unfold Stutter.search_step.
    rewrite Ew, Ec. simpl. apply Z.leb_le in Hle. now rewrite Hle.
  - intros lo1 hi1 Ew. unfold Stutter.search_step. now rewrite Ew.
Qed.

(** *** The sweep *)

Lemma items_find_card_models mk top_id b :
  items (find_card_models mk top_id b)
  = if solve solver_fact (Stutter.formula_query codec clauses mk top_id b)
    then enum_models solver_fact (Stutter.formula_query codec clauses mk top_id b)
    else [].
Proof.
  unfold Stutter.find_models. simpl.
  destruct (solve solver_fact _); [apply items_map_Yield | reflexivity].
Qed.

Lemma count_true_bounds (ls : list Z) (m : Model) (c : Z) :
  Stutter.count_true ls m = Ok c -> 0 <= c <= Z.of_nat (length ls).
Proof.
  revert c. induction ls as [|x ls IH]; simpl; intros c.
  - intros [= <-]. lia.
  - destruct (py_index m (x - 1)) as [v|]; simpl; [|discriminate].
    destruct (Stutter.count_true ls m) as [c0|]; simpl; [|discriminate].
    intros [= <-]. specialize (IH c0 eq_refl). destruct (v >? 0); lia.
Qed.

Lemma py_range_cons (lo hi : Z) :
  lo < hi -> py_range lo hi = lo :: py_range (lo + 1) hi.
Proof.
  intros H. unfold py_range.
  replace (Z.to_nat (hi - lo)) with (S (Z.to_nat (hi - (lo + 1)))) by lia.
  simpl. f_equal; [lia|]. rewrite <- seq_shift, map_map.
  apply map_ext. intros i. lia.
Qed.

Lemma py_range_sorted (lo hi : Z) : StronglySorted Z.le (py_range lo hi).
Proof.
  unfold py_range. generalize (Z.to_nat (hi - lo)) as n. intros n. revert lo.
  induction n as [|n IH]; intros lo; simpl; constructor.
  - rewrite <- seq_shift, map_map.
    replace (map _ (seq 0 n)) with (map (fun i => (lo + 1) + Z.of_nat i) (seq 0 n))
      by (apply map_ext; intros; lia).
    apply IH.
  - apply Forall_forall. intros x Hx. apply in_map_iff in Hx.
    destruct Hx as (i & <- & _). lia.
Qed.

Lemma sweep_within (top_id b : Z) (rest : list Z) (cb : Z) :
  b <= cb ->
  sweep' top_id (b :: rest) cb
  = (find_card_models (equals card) top_id b ++ fst (sweep' top_id rest cb),
     snd (sweep' top_id rest cb)).
Proof.
  intros H. cbn [Stutter.sweep].
  destruct (b >? cb) eqn:E; [apply Z.gtb_lt in E; lia|].
  now destruct (sweep' top_id rest cb).
Qed.

(** The counts of the models a sweep emits are the bounds at which it
    emits them. *)
Lemma sweep_counts (top_id : Z) :
  equals_exact ->
  forall bs cb t e,
    sweep' top_id bs cb = (t, e) ->
    StronglySorted Z.le bs ->
    exists cs,
      map non_stutter_count' (items t) = map Ok cs
      /\ Forall (fun c => In c bs) cs
      /\ StronglySorted Z.le cs.
Proof.
  intros Hex. induction bs as [|b bs IH]; intros cb t e; simpl.
  - intros [= <- <-] _. exists []. repeat split; constructor.
  - intros Hs Hsorted. inversion Hsorted as [|? ? Hs' Hb]; subst.
    assert (Step : forall cb' t' e',
               sweep' top_id bs cb' = (t', e') ->
               exists cs,
                 map non_stutter_count'
                     (items (find_card_models (equals card) top_id b ++ t'))
                 = map Ok cs
                 /\ Forall (fun c => In c (b :: bs)) cs
                 /\ StronglySorted Z.le cs).
    { intros cb' t' e' Hs2.
      destruct (IH _ _ _ Hs2 Hs') as (cs & E & Hin & Hsort).
      exists (map (fun _ => b) (items (find_card_models (equals card) top_id b))
              ++ cs).
      rewrite items_app, !map_app, E, map_map. split; [|split].
      - f_equal. apply map_ext_in. intros w Hw.
        now destruct (Hex top_id b w Hw).
      - apply Forall_app. split.
        + apply Forall_forall. intros c Hc. apply in_map_iff in Hc.
          destruct Hc as (? & <- & _). now left.
        + eapply Forall_impl; [|exact Hin]. intros c Hc. now right.
      - induction (items (find_card_models (equals card) top_id b)) as [|w ws IHw];
          simpl; [exact Hsort|].
        constructor; [exact IHw|]. apply Forall_app. split.
        + apply Forall_forall. intros c Hc. apply in_map_iff in Hc.
          destruct Hc as (? & <- & _). lia.
        + rewrite Forall_forall in Hin, Hb |- *. intros c Hc.
          apply Hb, Hin, Hc. }
    destruct (b >? cb).
    + destruct (first_model' (atmost card) top_id b) as [w|].
      * destruct (non_stutter_count' w) as [c|].
        -- destruct (sweep' top_id bs c) as [t' e'] eqn:Hs2.
           injection Hs as <- <-. simpl items. eapply Step; eauto.
        -- injection Hs as <- <-. exists []. repeat split; constructor.
      * injection Hs as <- <-. exists []. repeat split; constructor.
    + destruct (sweep' top_id bs cb) as [t' e'] eqn:Hs2.
      injection Hs as <- <-. eapply Step; eauto.
Qed.

Lemma py_range_increasing (lo hi : Z) : StronglySorted Z.lt (py_range lo hi).
Proof.
  unfold py_range. generalize (Z.to_nat (hi - lo)) as n. intros n. revert lo.
  induction n as [|n IH]; intros lo; simpl; constructor.
  - rewrite <- seq_shift, map_map.
    replace (map _ (seq 0 n)) with (map (fun i => (lo + 1) + Z.of_nat i) (seq 0 n))
      by (apply map_ext; intros; lia).
    apply IH.
  - apply Forall_forall. intros x Hx. apply in_map_iff in Hx.
    destruct Hx as (i & <- & Hi). apply in_seq in Hi. lia.
Qed.

Lemma py_range_In (lo hi c : Z) : In c (py_range lo hi) <-> lo <= c < hi.
Proof.
  unfold py_range. rewrite in_map_iff. split.
  - intros (i & <- & Hi). apply in_seq in Hi. lia.
  - intros H. exists (Z.to_nat (c - lo)). split; [lia|]. apply in_seq. lia.
Qed.

(** The search never raises [lo] above a count that some model attains
    at or above the initial [lo]. *)
Lemma search_lower_bound (top_id lo0 : Z) :
  atmost_contract ->
  forall fuel lo hi qs lo' hi',
    lo0 <= lo ->
    (forall c, attains c -> lo0 <= c -> lo <= c) ->
    search' fuel top_id lo hi = Some (qs, Ok (lo', hi')) ->
    lo0 <= lo' /\ (forall c, attains c -> lo0 <= c -> lo' <= c).
Proof.
  intros Hat. induction fuel as [|fuel IH]; intros lo hi qs lo' hi' H0 Hlo;
    simpl.
  - destruct (lo <? hi); [discriminate|]. intros [= <- <- <-]. auto.
  - destruct (lo <? hi) eqn:E; [|intros [= <- <- <-]; auto].
    apply Z.ltb_lt in E. pose proof (midpoint_between lo hi E) as Hmid.
    destruct (search_step' top_id lo hi) as [[lo1 hi1]|ex] eqn:Es;
      [|discriminate].
    destruct (search' fuel top_id lo1 hi1) as [[qs1 r1]|] eqn:Er;
      [|discriminate].
    intros [= <- ->]. apply (IH lo1 hi1 qs1 lo' hi'); auto;
      revert Es; unfold Stutter.search_step;
      destruct (first_model' (atmost card) top_id ((lo + hi) / 2)) as [w|] eqn:Ew.
    + destruct (non_stutter_count' w) as [c|]; simpl; [|discriminate].
      destruct (c <=? _); [|discriminate]. intros [= <- <-]. exact H0.
    + intros [= <- <-]. lia.
    + destruct (non_stutter_count' w) as [c|]; simpl; [|discriminate].
      destruct (c <=? _); [|discriminate]. intros [= <- <-]. exact Hlo.
    + intros [= <- <-] c Hc _.
      pose proof (proj2 (Hat top_id ((lo + hi) / 2)) Ew c Hc). lia.
Qed.

(** The first model of a sweep comes from the exactly session of some
    bound, and the exactly sessions of the smaller bounds are empty. *)
Lemma sweep_first (top_id : Z) :
  forall bs cb t e w rest,
    StronglySorted Z.lt bs ->
    sweep' top_id bs cb = (t, e) ->
    items t = w :: rest ->
    exists b,
      In b bs
      /\ In w (items (find_card_models (equals card) top_id b))
      /\ forall b', In b' bs -> b' < b ->
                    items (find_card_models (equals card) top_id b') = [].
Proof.
  induction bs as [|b bs IH]; intros cb t e w rest Hsorted; cbn [Stutter.sweep].
  - intros [= <- <-]. discriminate.
  - inversion Hsorted as [|? ? Hs' Hb]; subst. rewrite Forall_forall in Hb.
    assert (Step : forall cb' t' e',
               sweep' top_id bs cb' = (t', e') ->
               items (find_card_models (equals card) top_id b ++ t') = w :: rest ->
               exists b0,
                 In b0 (b :: bs)
                 /\ In w (items (find_card_models (equals card) top_id b0))
                 /\ forall b', In b' (b :: bs) -> b' < b0 ->
                      items (find_card_models (equals card) top_id b') = []).
    { intros cb' t' e' Hs2. rewrite items_app.
      destruct (items (find_card_models (equals card) top_id b)) as [|w0 ws] eqn:Ei.
      - cbn [app]. intros Hw.
        destruct (IH _ _ _ _ _ Hs' Hs2 Hw) as (b0 & Hin & Hw0 & Hbefore).
        exists b0. split; [now right|]. split; [exact Hw0|].
        intros b' [<-|Hb'] Hlt; auto.
      - cbn [app]. intros [= <- _]. exists b. split; [now left|].
        split; [rewrite Ei; now left|].
        intros b' [<-|Hb'] Hlt; [lia|]. specialize (Hb b' Hb'). lia. }
    destruct (b >? cb).
    + destruct (first_model' (atmost card) top_id b) as [w0|].
      * destruct (non_stutter_count' w0) as [c|].
        -- destruct (sweep' top_id bs c) as [t' e'] eqn:Hs2.
           intros [= <- <-]. cbn [items]. eapply Step; eauto.
        -- intros [= <- <-]. discriminate.
      * intros [= <- <-]. discriminate.
    + destruct (sweep' top_id bs cb) as [t' e'] eqn:Hs2.
      intros [= <- <-]. eapply Step; eauto.
Qed.

(** C7, as amended. The models [order_models_by_stutter] emits come in
    non-decreasing order of non-stutter count; the first one attains the
    least count among the models of the clause set that have at least
    [n_colors - 1] non-stutter transitions, which is the least count of
    all when no model has fewer; and the sweep stops at the first bound
    above the confirmed one whose at-most session has no model. *)
Theorem stutter_order_monotone
    (fuel : nat) (model : Model) (t : list (event Model)) (e : option ending) :
  Stutter.equals_exact solver_fact card codec clauses ->
  Stutter.order_models_by_stutter solver_fact card codec clauses fuel model
    = (t, e) ->
  (exists cs,
      map (Stutter.non_stutter_count codec) (items t) = map Ok cs
      /\ StronglySorted Z.le cs)
  /\ (Stutter.atmost_contract solver_fact card codec clauses ->
      Stutter.equals_complete solver_fact card codec clauses ->
      forall w rest, items t = w :: rest ->
      exists c,
        Stutter.non_stutter_count codec w = Ok c
        /\ Stutter.attains codec clauses c
        /\ Z.of_nat (n_colors codec) - 1 <= c
        /\ (forall c', Stutter.attains codec clauses c' ->
                       Z.of_nat (n_colors codec) - 1 <= c' -> c <= c')
        /\ ((forall c', Stutter.attains codec clauses c' ->
                        Z.of_nat (n_colors codec) - 1 <= c') ->
            Stutter.minimum codec clauses c))
  /\ (forall top_id b rest cb,
        b > cb ->
        Stutter.first_model solver_fact codec clauses (atmost card) top_id b
          = None ->
        Stutter.sweep solver_fact card codec clauses top_id (b :: rest) cb
        = ([Query (Stutter.formula_query codec clauses (atmost card) top_id b)],
           Stop)).
Proof.
  intros Hex Hrun. split; [|split].
  - revert Hrun. unfold Stutter.order_models_by_stutter.
    destruct (py_max_map_max clauses) as [top0|];
      [|intros [= <- <-]; exists []; split; constructor].
    destruct (non_stutter_count' model) as [hi|];
      [|intros [= <- <-]; exists []; split; constructor].
    destruct (search' fuel _ _ hi) as [[qs [[lo1 hi1]|ex]]|];
      try (intros [= <- <-]; rewrite ?items_map_Query;
           exists []; split; constructor).
    destruct (sweep' _ _ hi) as [t' e'] eqn:Hs. intros [= <- <-].
    rewrite items_app, items_map_Query. simpl.
    destruct (sweep_counts _ Hex _ _ _ _ Hs (py_range_sorted _ _))
      as (cs & E & _ & Hsort).
    exists cs. auto.
  - intros Hat Hco w rest Hw. revert Hrun.
    unfold Stutter.order_models_by_stutter.
    destruct (py_max_map_max clauses) as [top0|];
      [|intros [= <- <-]; discriminate].
    destruct (non_stutter_count' model) as [hi|] eqn:Ehi;
      [|intros [= <- <-]; discriminate].
    set (top_id := Z.max (max_id codec) top0).
    destruct (search' fuel top_id _ hi) as [[qs [[lo1 hi1]|ex]]|] eqn:Es;
      try (intros [= <- <-]; rewrite ?items_map_Query in Hw; discriminate).
    destruct (search_lower_bound top_id (Z.of_nat (n_colors codec) - 1) Hat
                _ _ _ _ _ _ (Z.le_refl _) (fun c _ H => H) Es) as [Hlo0 Hlow].
    destruct (sweep' top_id _ hi) as [t' e'] eqn:Hs.
    cbv beta iota. intros Heq. apply pair_equal_spec in Heq.
    destruct Heq as [<- _]. rewrite items_app, items_map_Query in Hw.
    change ([] ++ ?x) with x in Hw.
    destruct (sweep_first top_id _ _ _ _ _ _ (py_range_increasing _ _) Hs Hw)
      as (b & Hb & Hwb & Hbefore).
    apply py_range_In in Hb.
    destruct (Hex top_id b w Hwb) as [Hsat Hcount].
    assert (Hatt : attains b) by (exists w; auto).
    assert (Hleast : forall c', attains c' ->
                       Z.of_nat (n_colors codec) - 1 <= c' -> b <= c').
    { intros c' Hc' Hge. destruct (Z.le_gt_cases b c') as [|Hlt]; [assumption|].
      exfalso. apply (Hco top_id c' Hc'). apply Hbefore; [|lia].
      apply py_range_In. split; [now apply Hlow|].
      destruct Hc' as (m' & _ & Hm'). unfold Stutter.non_stutter_count in Hm'.
      pose proof (count_true_bounds _ _ _ Hm'). lia. }
    exists b. repeat split; auto; lia.
  - intros top_id b rest cb Hgt Ew. simpl.
    apply Z.gt_lt, Z.gtb_lt in Hgt. now rewrite Hgt, Ew.
Qed.

(** *** The sweep under the contracts *)

(** With a candidate bound that some model attains, no at-most session
    of the sweep comes back empty: the sweep visits every bound. *)
Lemma sweep_visits_all (top_id : Z) :
  Stutter.atmost_contract solver_fact card codec clauses ->
  Stutter.atmost_bounded solver_fact card codec clauses ->
  forall bs cb,
    Stutter.attains codec clauses cb ->
    items (fst (Stutter.sweep solver_fact card codec clauses top_id bs cb))
    = flat_map (fun b => items (Stutter.find_models solver_fact codec clauses
                                  (equals card) top_id b)) bs
    /\ snd (Stutter.sweep solver_fact card codec clauses top_id bs cb) = Stop.
Proof.
  intros Hat Hbd. induction bs as [|b bs IH]; intros cb Hcb;
    cbn [Stutter.sweep flat_map]; [auto|].
  destruct (b >? cb) eqn:E.
  - apply Z.gtb_lt in E.
    destruct (Stutter.first_model _ _ _ _ _ _) as [w|] eqn:Ew.
    + destruct (Hbd _ _ _ Ew) as (c & Ec & Hc). rewrite Ec.
      assert (Hatt : Stutter.attains codec clauses c).
      { exists w. split; [apply (proj1 (Hat top_id b)); exact Ew | exact Ec]. }
      destruct (IH c Hatt) as [I1 I2].
      destruct (Stutter.sweep _ _ _ _ top_id bs c) as [t e].
      cbn [fst snd items] in *. rewrite items_app, I1. auto.
    + pose proof (proj2 (Hat top_id b) Ew cb Hcb). lia.
  - destruct (IH cb Hcb) as [I1 I2].
    destruct (Stutter.sweep _ _ _ _ top_id bs cb) as [t e].
    cbn [fst snd] in *. rewrite items_app, I1. auto.
Qed.

(** *** The iteration budget

    A budget that was enough stays enough: the result does not depend on
    what is left of it. *)
Lemma search_fuel_mono (top_id : Z) :
  forall fuel lo hi r,
    search' fuel top_id lo hi = Some r ->
    forall fuel', (fuel <= fuel')%nat -> search' fuel' top_id lo hi = Some r.
Proof.
  induction fuel as [|fuel IH]; intros lo hi r H fuel' Hle.
  - simpl in H. destruct (lo <? hi) eqn:E; [discriminate|].
    destruct fuel'; simpl; rewrite E; exact H.
  - destruct fuel' as [|fuel']; [lia|]. simpl in *.
    destruct (lo <? hi); [|exact H].
    destruct (search_step' top_id lo hi) as [[lo1 hi1]|e]; [|exact H].
    destruct (search' fuel top_id lo1 hi1) as [[qs r1]|] eqn:Er;
      [|discriminate].
    rewrite (IH _ _ _ Er fuel') by lia. exact H.
Qed.

Lemma order_models_fuel_mono (model : Model) (fuel fuel' : nat) :
  snd (order_models_by_stutter' fuel model) <> None ->
  (fuel <= fuel')%nat ->
  order_models_by_stutter' fuel' model = order_models_by_stutter' fuel model.
Proof.
  unfold Stutter.order_models_by_stutter.
  destruct (py_max_map_max clauses); [|reflexivity].
  destruct (non_stutter_count' model) as [hi|]; [|reflexivity].
  destruct (search' fuel _ _ hi) as [r|] eqn:Es.
  - intros _ Hle. now rewrite (search_fuel_mono _ _ _ _ _ Es _ Hle).
  - simpl. congruence.
Qed.

(** Under the contracts the optimizer ends normally, and it emits the
    models of the exactly sessions for the counts from [n_colors - 1]
    up, and no others. *)
Lemma stutter_emits (fuel : nat) (model : Model) (top0 hi : Z) :
  Stutter.atmost_contract solver_fact card codec clauses ->
  Stutter.atmost_bounded solver_fact card codec clauses ->
  Stutter.equals_exact solver_fact card codec clauses ->
  satisfies model clauses = true ->
  py_max_map_max clauses = Ok top0 ->
  Stutter.non_stutter_count codec model = Ok hi ->
  hi - (Z.of_nat (n_colors codec) - 1) <= Z.of_nat fuel ->
  snd (Stutter.order_models_by_stutter solver_fact card codec clauses
                                       fuel model) = Some Stop
  /\ forall w,
      In w (items (fst (Stutter.order_models_by_stutter
                          solver_fact card codec clauses fuel model)))
      <-> exists c,
            Z.of_nat (n_colors codec) - 1 <= c
            /\ In w (items (Stutter.find_models solver_fact codec clauses
                              (equals card) (Z.max (max_id codec) top0) c)).
Proof.
  intros Hat Hbd Hex Hm Htop Hhi Hfuel.
  unfold Stutter.order_models_by_stutter. rewrite Htop, Hhi.
  set (top_id := Z.max (max_id codec) top0).
  destruct (search_enough_fuel top_id fuel
              (Z.of_nat (n_colors codec) - 1) hi Hfuel)
    as (qs & r & Hs & _ & _).
  destruct (search_no_raise top_id Hbd _ _ _ _ _ Hs) as (lo1 & hi1 & ->).
  rewrite Hs.
  destruct (search_lower_bound top_id (Z.of_nat (n_colors codec) - 1) Hat
              _ _ _ _ _ _ (Z.le_refl _) (fun c _ H => H) Hs) as [Hlo0 Hlow].
  assert (Hatt : Stutter.attains codec clauses hi) by (exists model; auto).
  destruct (sweep_visits_all top_id Hat Hbd
              (py_range lo1 (Z.of_nat (length (Stutter.lits codec)) + 1))
              hi Hatt) as [I1 I2].
  destruct (Stutter.sweep _ _ _ _ _ _ hi) as [t e]. cbn [fst snd] in *.
  split; [now rewrite I2|].
  intros w. rewrite items_app, items_map_Query, I1. cbn [app].
  rewrite in_flat_map. split.
  - intros (b & Hb & Hw). apply py_range_In in Hb. exists b.
    split; [lia | exact Hw].
  - intros (c & Hge & Hw). exists c. split; [|exact Hw].
    destruct (Hex top_id c w Hw) as [Hsat Hcount].
    apply py_range_In. split.
    + apply Hlow; [exists w; auto | exact Hge].
    + unfold Stutter.non_stutter_count in Hcount.
      pose proof (count_true_bounds _ _ _ Hcount). lia.
Qed.

End SearchFacts.

(** ** The reference oracle meets the contracts *)

Section ReferenceFacts.

Import Reference.

Lemma forallb_map {A B} (f : B -> bool) (g : A -> B) (l : list A) :
  forallb f (map g l) = forallb (fun x => f (g x)) l.
Proof. induction l; simpl; congruence. Qed.

Lemma existsb_map {A B} (f : B -> bool) (g : A -> B) (l : list A) :
  existsb f (map g l) = existsb (fun x => f (g x)) l.
Proof. induction l; simpl; congruence. Qed.

Lemma forallb_ext_in {A} (f g : A -> bool) (l : list A) :
  (forall x, In x l -> f x = g x) -> forallb f l = forallb g l.
Proof.
  induction l as [|a l IH]; simpl; intros H; auto.
  rewrite H, IH; auto.
Qed.

Lemma existsb_ext_in {A} (f g : A -> bool) (l : list A) :
  (forall x, In x l -> f x = g x) -> existsb f l = existsb g l.
Proof.
  induction l as [|a l IH]; simpl; intros H; auto.
  rewrite H, IH; auto.
Qed.

Lemma satisfies_app (m : Model) (p q : Clauses) :
  satisfies m (p ++ q) = satisfies m p && satisfies m q.
Proof. apply forallb_app. Qed.

(** *** Enumeration *)

Lemma assignments_length (n : nat) (m : Model) :
  In m (assignments n) -> length m = n.
Proof.
  revert m. induction n as [|n IH]; intros m; simpl assignments.
  - intros [<-|[]]. reflexivity.
  - rewrite in_flat_map. intros (m0 & H0 & [<-|[<-|[]]]);
      rewrite length_app, (IH _ H0); simpl; lia.
Qed.

Lemma canon_in (n : nat) (m : Model) : In (canon n m) (assignments n).
Proof.
  induction n as [|n IH]; [now left|].
  cbn [canon assignments]. apply in_flat_map. exists (canon n m).
  split; [exact IH|]. destruct (nth n m 0 >? 0); simpl; auto.
Qed.

Lemma canon_agree (n : nat) (m : Model) : agree n m (canon n m).
Proof.
  induction n as [|n IH]; intros i Hi; [lia|].
  cbn [canon]. pose proof (assignments_length _ _ (canon_in n m)) as L.
  destruct (Nat.eq_dec i n) as [->|Hne].
  - rewrite app_nth2 by lia. rewrite L, Nat.sub_diag. simpl nth.
    destruct (nth n m 0 >? 0) eqn:E; symmetry.
    + apply Z.gtb_lt. lia.
    + rewrite Z.gtb_ltb; apply Z.ltb_ge. lia.
  - rewrite app_nth1 by lia. apply IH. lia.
Qed.

Lemma lit_true_agree (n : nat) (m m' : Model) (l : Z) :
  agree n m m' -> Z.max (Z.abs l) 1 <= Z.of_nat n ->
  lit_true m l = lit_true m' l.
Proof.
  intros Ha Hl. unfold lit_true, var_true.
  destruct (l >? 0) eqn:E.
  - apply Z.gtb_lt in E. apply Ha. lia.
  - rewrite Z.gtb_ltb in E; apply Z.ltb_ge in E. f_equal. apply Ha. lia.
Qed.

Lemma satisfies_agree (n : nat) (m m' : Model) (q : Clauses) :
  agree n m m' ->
  (forall c l, In c q -> In l c -> Z.max (Z.abs l) 1 <= Z.of_nat n) ->
  satisfies m q = satisfies m' q.
Proof.
  intros Ha Hq. apply forallb_ext_in. intros c Hc.
  apply existsb_ext_in. intros l Hl.
  eapply lit_true_agree; eauto.
Qed.

Lemma clause_vars_bound (c : Clause) (l : Z) :
  In l c -> Z.max (Z.abs l) 1 <= clause_vars c.
Proof.
  induction c as [|x c IH]; simpl; [tauto|].
  intros [->|H]; [lia|]. specialize (IH H). lia.
Qed.

Lemma num_vars_bound (q : Clauses) (c : Clause) (l : Z) :
  In c q -> In l c -> Z.max (Z.abs l) 1 <= Z.of_nat (num_vars q).
Proof.
  unfold num_vars. intros Hc Hl.
  pose proof (clause_vars_bound c l Hl) as B.
  assert (M : clause_vars c <= fold_right (fun c a => Z.max (clause_vars c) a) 0 q).
  { clear B Hl. induction q as [|d q IH]; simpl; [destruct Hc|].
    destruct Hc as [->|H]; [lia|]. specialize (IH H). lia. }
  lia.
Qed.

Lemma num_vars_app (p q : Clauses) : (num_vars p <= num_vars (p ++ q))%nat.
Proof.
  unfold num_vars. apply Z2Nat.inj_le.
  - induction p; simpl; lia.
  - induction p; simpl; [induction q; simpl; lia | lia].
  - induction p as [|c p IH]; simpl; [induction q; simpl; lia | lia].
Qed.

Lemma all_models_sound (q : Clauses) (m : Model) :
  In m (all_models q) -> satisfies m q = true /\ length m = num_vars q.
Proof.
  unfold all_models. rewrite filter_In. intros [H1 H2]. split; auto.
  now apply assignments_length.
Qed.

Lemma all_models_complete (q : Clauses) (m : Model) :
  satisfies m q = true -> all_models q <> [].
Proof.
  intros H.
  assert (I : In (canon (num_vars q) m) (all_models q)).
  { unfold all_models. apply filter_In. split; [apply canon_in|].
    rewrite <- H. symmetry. apply (satisfies_agree (num_vars q)).
    - apply canon_agree.
    - intros c l. apply num_vars_bound. }
  intros E. now rewrite E in I.
Qed.

(** *** Cardinality *)

Lemma choose_cover (p : Z -> bool) (l : list Z) :
  forall k,
    forallb (fun s => existsb (fun x => negb (p x)) s) (choose (S k) l)
    = (length (filter p l) <=? k)%nat.
Proof.
  induction l as [|x l IH]; intros k; [reflexivity|].
  cbn [choose filter]. rewrite forallb_app, forallb_map. cbn [existsb].
  destruct (p x) eqn:Px; cbn [negb orb length].
  - destruct k as [|k].
    + destruct l; reflexivity.
    + rewrite !IH. cbn [Nat.leb].
      destruct (length (filter p l) <=? k)%nat eqn:E; [|reflexivity].
      apply Nat.leb_le in E. cbn [andb]. apply Nat.leb_le. lia.
  - rewrite IH. replace (forallb _ (choose k l)) with true; [reflexivity|].
    symmetry. apply forallb_forall. reflexivity.
Qed.

Lemma at_most_spec (m : Model) (ls : list Z) (b : Z) :
  Forall (fun x => 1 <= x) ls ->
  satisfies m (at_most ls b) = (Z.of_nat (trues m ls) <=? b).
Proof.
  intros Hpos. unfold at_most. destruct (b <? 0) eqn:E.
  - apply Z.ltb_lt in E. simpl. symmetry. apply Z.leb_gt. lia.
  - apply Z.ltb_ge in E. unfold satisfies, clause_true.
    rewrite forallb_map.
    rewrite (forallb_ext_in _
               (fun s => existsb (fun x => negb (negb (lit_true m (- x)))) s)).
    2:{ intros s _. rewrite existsb_map. apply existsb_ext_in.
        intros x _. now rewrite negb_involutive. }
    rewrite (choose_cover (fun x => negb (lit_true m (- x)))).
    unfold trues.
    rewrite (filter_ext_in (fun x => negb (lit_true m (- x))) (var_true m)).
    2:{ intros x Hx. rewrite Forall_forall in Hpos. specialize (Hpos x Hx).
        unfold lit_true. replace (- x >? 0) with false
          by (symmetry; rewrite Z.gtb_ltb; apply Z.ltb_ge; lia).
        now rewrite negb_involutive, Z.opp_involutive. }
    destruct (length (filter (var_true m) ls) <=? Z.to_nat b)%nat eqn:L.
    + apply Nat.leb_le in L. symmetry. apply Z.leb_le. lia.
    + apply Nat.leb_gt in L. symmetry. apply Z.leb_gt. lia.
Qed.

Lemma filter_split_length {A} (p : A -> bool) (l : list A) :
  (length (filter p l) + length (filter (fun x => negb (p x)) l))%nat = length l.
Proof.
  induction l as [|a l IH]; simpl; auto. destruct (p a); simpl; lia.
Qed.

Lemma at_least_spec (m : Model) (ls : list Z) (b : Z) :
  Forall (fun x => 1 <= x) ls ->
  satisfies m (at_least ls b) = (b <=? Z.of_nat (trues m ls)).
Proof.
  intros Hpos. unfold at_least. destruct (b <=? 0) eqn:E.
  - apply Z.leb_le in E. simpl. symmetry. apply Z.leb_le. lia.
  - apply Z.leb_gt in E.
    pose proof (filter_split_length (var_true m) ls) as Hsplit.
    destruct (Z.of_nat (length ls) <? b) eqn:E2.
    + apply Z.ltb_lt in E2. simpl. symmetry. apply Z.leb_gt.
      unfold trues. lia.
    + apply Z.ltb_ge in E2. unfold satisfies, clause_true.
      rewrite (forallb_ext_in _
                 (fun s => existsb (fun x => negb (negb (lit_true m x))) s)).
      2:{ intros s _. apply existsb_ext_in.
          intros x _. now rewrite negb_involutive. }
      rewrite (choose_cover (fun x => negb (lit_true m x))).
      rewrite (filter_ext_in (fun x => negb (lit_true m x))
                             (fun x => negb (var_true m x))).
      2:{ intros x Hx. rewrite Forall_forall in Hpos. specialize (Hpos x Hx).
          unfold lit_true. replace (x >? 0) with true
            by (symmetry; apply Z.gtb_lt; lia).
          reflexivity. }
      unfold trues.
      destruct (_ <=? _)%nat eqn:L.
      * apply Nat.leb_le in L. symmetry. apply Z.leb_le. lia.
      * apply Nat.leb_gt in L. symmetry. apply Z.leb_gt. lia.
Qed.

(** *** Counting *)

Lemma count_true_trues (ls : list Z) (m : Model) (c : Z) :
  Forall (fun x => 1 <= x) ls ->
  Stutter.count_true ls m = Ok c -> c = Z.of_nat (trues m ls).
Proof.
  unfold trues. intros Hpos. revert c.
  induction Hpos as [|x ls Hx Hpos IH]; intros c; cbn [Stutter.count_true filter].
  - intros [= <-]. reflexivity.
  - unfold py_index.
    destruct ((0 <=? x - 1) && (x - 1 <? Z.of_nat (length m))) eqn:E.
    + cbn [bind]. destruct (Stutter.count_true ls m) as [c0|]; [|discriminate].
      cbn [bind]. intros [= <-]. rewrite (IH c0 eq_refl). unfold var_true.
      destruct (nth (Z.to_nat (x - 1)) m 0 >? 0); cbn [length]; lia.
    + replace ((- Z.of_nat (length m) <=? x - 1) && (x - 1 <? 0)) with false;
        [discriminate|].
      symmetry. apply andb_false_iff. right. apply Z.ltb_ge. lia.
Qed.

Lemma count_true_ok (ls : list Z) (m : Model) :
  Forall (fun x => 1 <= x <= Z.of_nat (length m)) ls ->
  Stutter.count_true ls m = Ok (Z.of_nat (trues m ls)).
Proof.
  intros H.
  assert (E : exists c, Stutter.count_true ls m = Ok c).
  { induction H as [|x ls Hx H IH]; cbn [Stutter.count_true]; [eauto|].
    unfold py_index.
    replace ((0 <=? x - 1) && (x - 1 <? Z.of_nat (length m))) with true
      by (symmetry; apply andb_true_iff; split;
          [apply Z.leb_le | apply Z.ltb_lt]; lia).
    destruct IH as (c & ->). cbn [bind]. eauto. }
  destruct E as (c & E). rewrite E. f_equal.
  eapply count_true_trues; eauto.
  eapply Forall_impl; [|exact H]. intros; simpl in *; lia.
Qed.

(** *** The contracts *)

Variable codec : Codec.
Variable clauses : Clauses.

Hypothesis lits_in_range :
  Forall (fun x => 1 <= x <= Z.of_nat (num_vars clauses))
         (non_stutter_lits codec).

Lemma lits_positive : Forall (fun x => 1 <= x) (non_stutter_lits codec).
Proof. eapply Forall_impl; [|exact lits_in_range]. intros; simpl in *; lia. Qed.

Lemma reference_first_model mk top_id b :
  Stutter.first_model solver codec clauses mk top_id b
  = hd_error (all_models (Stutter.formula_query codec clauses mk top_id b)).
Proof.
  unfold Stutter.first_model. simpl.
  now destruct (all_models _).
Qed.

Lemma reference_items mk top_id b :
  items (Stutter.find_models solver codec clauses mk top_id b)
  = all_models (Stutter.formula_query codec clauses mk top_id b).
Proof.
  rewrite items_find_card_models. simpl. now destruct (all_models _).
Qed.

Lemma attains_trues (c : Z) (m : Model) :
  Stutter.non_stutter_count codec m = Ok c ->
  c = Z.of_nat (trues m (non_stutter_lits codec)).
Proof. apply count_true_trues, lits_positive. Qed.

Lemma reference_count (q : Clauses) (w : Model) :
  In w (all_models (clauses ++ q)) ->
  Stutter.non_stutter_count codec w
  = Ok (Z.of_nat (trues w (non_stutter_lits codec))).
Proof.
  intros H. apply all_models_sound in H. destruct H as [_ L].
  apply count_true_ok. pose proof (num_vars_app clauses q).
  eapply Forall_impl; [|exact lits_in_range]. intros; simpl in *; lia.
Qed.

Lemma reference_atmost : Stutter.atmost_contract solver card codec clauses.
Proof.
  intros top_id b. rewrite reference_first_model.
  unfold Stutter.formula_query. simpl atmost. split.
  - intros w Hw.
    assert (I : In w (all_models (clauses ++ at_most (Stutter.lits codec) b)))
      by (destruct (all_models _); [discriminate | injection Hw as ->; now left]).
    apply all_models_sound in I. destruct I as [I _].
    rewrite satisfies_app in I. now apply andb_true_iff in I.
  - intros Hn c (m & Hm & Hc).
    destruct (Z.le_gt_cases c b) as [Hle|]; [exfalso | lia].
    apply attains_trues in Hc.
    apply (all_models_complete (clauses ++ at_most (Stutter.lits codec) b) m).
    + rewrite satisfies_app, Hm, at_most_spec by apply lits_positive.
      apply Z.leb_le. unfold Stutter.lits. lia.
    + now destruct (all_models _).
Qed.

Lemma reference_atmost_bounded :
  Stutter.atmost_bounded solver card codec clauses.
Proof.
  intros top_id b w. rewrite reference_first_model.
  unfold Stutter.formula_query. simpl atmost. intros Hw.
  assert (I : In w (all_models (clauses ++ at_most (Stutter.lits codec) b)))
    by (destruct (all_models _); [discriminate | injection Hw as ->; now left]).
  rewrite (reference_count _ _ I). eexists. split; [reflexivity|].
  apply all_models_sound in I. destruct I as [I _].
  rewrite satisfies_app, at_most_spec in I by apply lits_positive.
  apply andb_true_iff in I. destruct I as [_ I]. apply Z.leb_le in I.
  exact I.
Qed.

Lemma reference_equals_exact : Stutter.equals_exact solver card codec clauses.
Proof.
  intros top_id b w. rewrite reference_items.
  unfold Stutter.formula_query. simpl equals. intros I.
  rewrite (reference_count _ _ I).
  apply all_models_sound in I. destruct I as [I _].
  rewrite !satisfies_app in I.
  rewrite at_most_spec, at_least_spec in I by apply lits_positive.
  apply andb_true_iff in I. destruct I as [I1 I2].
  apply andb_true_iff in I2. destruct I2 as [I2 I3].
  apply Z.leb_le in I2, I3. split; [exact I1|]. f_equal.
  unfold Stutter.lits in *. lia.
Qed.

Lemma reference_equals_complete : Stutter.equals_complete solver card codec clauses.
Proof.
  intros top_id b (m & Hm & Hc). rewrite reference_items.
  apply attains_trues in Hc.
  apply (all_models_complete _ m).
  unfold Stutter.formula_query. simpl equals.
  rewrite !satisfies_app, Hm, at_most_spec, at_least_spec by apply lits_positive.
  unfold Stutter.lits. cbn [andb].
  apply andb_true_iff. split; apply Z.leb_le; lia.
Qed.

(** Properties of the counts of all models can be read off the
    enumeration. *)
Lemma reference_attains (c : Z) :
  Stutter.attains codec clauses c ->
  exists w, In w (all_models clauses)
            /\ Stutter.non_stutter_count codec w = Ok c.
Proof.
  intros (m & Hm & Hc).
  assert (I : In (canon (num_vars clauses) m) (all_models clauses)).
  { unfold all_models. apply filter_In. split; [apply canon_in|].
    rewrite <- Hm. symmetry. apply (satisfies_agree (num_vars clauses)).
    - apply canon_agree.
    - intros d l. apply num_vars_bound. }
  exists (canon (num_vars clauses) m). split; [exact I|].
  assert (I' : In (canon (num_vars clauses) m) (all_models (clauses ++ [])))
    by now rewrite app_nil_r.
  rewrite (reference_count _ _ I'). f_equal. rewrite (attains_trues _ _ Hc). f_equal. unfold trues. f_equal.
  apply filter_ext_in. intros x Hx.
  pose proof lits_in_range as R. rewrite Forall_forall in R.
  specialize (R x Hx). unfold var_true. symmetry.
  apply canon_agree. lia.
Qed.

Lemma reference_lower_bound (lo : Z) :
  forallb (fun w => match Stutter.non_stutter_count codec w with
                    | Ok c => lo <=? c
                    | Raise _ => false
                    end) (all_models clauses) = true ->
  forall c, Stutter.attains codec clauses c -> lo <= c.
Proof.
  intros H c Hc. destruct (reference_attains c Hc) as (w & Hw & Ew).
  rewrite forallb_forall in H. specialize (H w Hw). rewrite Ew in H.
  now apply Z.leb_le.
Qed.

End ReferenceFacts.

(** ** A checking oracle meets the at-most contract

    When its candidates include a model of the clause set without
    non-stutter transitions, and the non-stutter literals index into every
    candidate. *)

Lemma existsb_false_filter {A} (f : A -> bool) (l : list A) :
  existsb f l = false -> filter f l = [].
Proof.
  induction l as [|a l IH]; simpl; [reflexivity|].
  intros E. apply orb_false_iff in E. destruct E as [-> E]. auto.
Qed.

Section CheckingFacts.

Variable codec : Codec.
Variable clauses : Clauses.
Variable candidates : list Model.

Hypothesis lits_positive : Forall (fun x => 1 <= x) (non_stutter_lits codec).
Hypothesis counts_defined :
  forall w, In w candidates ->
    Forall (fun x => 1 <= x <= Z.of_nat (length w)) (non_stutter_lits codec).
Hypothesis has_loops :
  exists w, In w candidates /\ satisfies w clauses = true
            /\ Reference.trues w (non_stutter_lits codec) = 0%nat.

Lemma checking_first_model mk top_id b :
  Stutter.first_model (Checking.solver candidates) codec clauses mk top_id b
  = hd_error
      (filter (fun m => satisfies m
                          (Stutter.formula_query codec clauses mk top_id b))
              candidates).
Proof.
  unfold Stutter.first_model. simpl.
  destruct (existsb _ candidates) eqn:E; [reflexivity|].
  now rewrite (existsb_false_filter _ _ E).
Qed.

Lemma checking_atmost :
  Stutter.atmost_contract (Checking.solver candidates) Reference.card
                          codec clauses.
Proof.
  intros top_id b. rewrite checking_first_model.
  unfold Stutter.formula_query. simpl atmost. split.
  - intros w Hw.
    assert (I : In w (filter
                        (fun m => satisfies m
                           (clauses ++ Reference.at_most (Stutter.lits codec) b))
                        candidates))
      by (destruct (filter _ _); [discriminate | injection Hw as ->; now left]).
    apply filter_In in I. destruct I as [_ I].
    rewrite satisfies_app in I. now apply andb_true_iff in I.
  - intros Hn c (m & Hm & Hc). destruct has_loops as (w0 & Hin & Hs & Ht).
    assert (N : satisfies w0
                  (clauses ++ Reference.at_most (Stutter.lits codec) b) = false).
    { destruct (satisfies w0 (clauses ++ _)) eqn:E; [|reflexivity].
      assert (I : In w0 (filter
                           (fun m => satisfies m
                              (clauses
                                 ++ Reference.at_most (Stutter.lits codec) b))
                           candidates)) by (apply filter_In; auto).
      destruct (filter _ _); [destruct I | discriminate]. }
    rewrite satisfies_app, Hs, at_most_spec in N by exact lits_positive.
    cbn [andb] in N. apply Z.leb_gt in N. unfold Stutter.lits in N.
    rewrite Ht in N. unfold Stutter.non_stutter_count in Hc.
    pose proof (count_true_bounds _ _ _ Hc). lia.
Qed.

Lemma checking_atmost_bounded :
  Stutter.atmost_bounded (Checking.solver candidates) Reference.card
                         codec clauses.
Proof.
  intros top_id b w. rewrite checking_first_model.
  unfold Stutter.formula_query. simpl atmost. intros Hw.
  assert (I : In w (filter
                      (fun m => satisfies m
                         (clauses ++ Reference.at_most (Stutter.lits codec) b))
                      candidates))
    by (destruct (filter _ _); [discriminate | injection Hw as ->; now left]).
  apply filter_In in I. destruct I as [Hin I].
  unfold Stutter.non_stutter_count, Stutter.lits in *.
  rewrite count_true_ok by (apply counts_defined; exact Hin).
  eexists. split; [reflexivity|].
  rewrite satisfies_app, at_most_spec in I by exact lits_positive.
  apply andb_true_iff in I. destruct I as [_ I]. now apply Z.leb_le in I.
Qed.

End CheckingFacts.

(** ** The worked instance *)

Lemma example_lits_in_range :
  Forall (fun x => 1 <= x <= Z.of_nat (Reference.num_vars Example.clauses))
         (non_stutter_lits Example.codec).
Proof.
  apply Forall_forall. intros x Hx. vm_compute in Hx.
  destruct Hx as [<-|[<-|[]]]; vm_compute; split; discriminate.
Qed.

Lemma example_lower_bound (c : Z) :
  Stutter.attains Example.codec Example.clauses c ->
  Z.of_nat (n_colors Example.codec) - 1 <= c.
Proof.
  apply reference_lower_bound; [apply example_lits_in_range|].
  vm_compute. reflexivity.
Qed.

Lemma contradictory_examples_empty_witness :
  find_dfa Reference.solver Reference.card unit Example.no_symmetry tt
           Example.no_extra (None, None) false 1
           [[Example.sym_a]] [[Example.sym_a]] None
  = Some (Ok None).
Proof.
  apply (contradictory_examples_empty
           Reference.solver Reference.card unit Example.no_symmetry tt
           Example.no_extra (None, None) false 0
           [[Example.sym_a]] [[Example.sym_a]] None false [Example.sym_a]);
    now left.
Defined.

Lemma find_dfa_first_of_find_dfas_witness :
  exists d,
    find_dfa Reference.solver Reference.card unit Example.no_symmetry tt
             Example.no_extra (None, None) false 3
             Example.accepting Example.rejecting None
    = Some (Ok (Some d)).
Proof.
  eexists.
  eapply (proj1 (find_dfa_first_of_find_dfas
                   Reference.solver Reference.card unit Example.no_symmetry tt
                   Example.no_extra (None, None) false 3
                   Example.accepting Example.rejecting None)).
  vm_compute. reflexivity.
Defined.

Lemma search_terminates_witness :
  1 <= 2
  /\ (exists qs r,
        Stutter.search Reference.solver Reference.card Example.codec
                       Example.clauses (Z.to_nat (2 - 1)) 10 1 2
        = Some (qs, r))
  /\ (forall fuel qs lo' hi',
        Stutter.search Reference.solver Reference.card Example.codec
                       Example.clauses fuel 10 1 2
        = Some (qs, Ok (lo', hi')) ->
        lo' = hi').
Proof.
  split; [lia|].
  destruct (search_terminates Reference.solver Reference.card Example.codec
                              Example.clauses 10 1 2 ltac:(lia))
    as [(qs & r & H & _) [_ [M _]]].
  split; [exists qs, r; exact H|].
  apply M.
  - apply reference_atmost, example_lits_in_range.
  - intros c Hc. exact (example_lower_bound c Hc).
Defined.

Lemma search_finds_minimum_witness :
  exists qs lo',
    Stutter.search Reference.solver Reference.card Example.codec Example.clauses
                   (Z.to_nat (2 - (Z.of_nat (n_colors Example.codec) - 1)))
                   10 (Z.of_nat (n_colors Example.codec) - 1) 2
    = Some (qs, Ok (lo', lo'))
    /\ Stutter.minimum Example.codec Example.clauses lo'.
Proof.
  refine (proj1 (proj2 (search_finds_minimum
            Reference.solver Reference.card Example.codec Example.clauses
            10 Example.model 2 _ _ _ _)) _).
  - apply reference_atmost, example_lits_in_range.
  - apply example_lower_bound.
  - vm_compute. reflexivity.
  - vm_compute. reflexivity.
  - apply reference_atmost_bounded, example_lits_in_range.
Defined.

Lemma stutter_order_monotone_witness :
  exists cs,
    map (Stutter.non_stutter_count Example.codec)
        (items (fst (Stutter.order_models_by_stutter
                       Reference.solver Reference.card Example.codec
                       Example.clauses 1 Example.model)))
    = map Ok cs
    /\ StronglySorted Z.le cs.
Proof.
  refine (proj1 (stutter_order_monotone
            Reference.solver Reference.card Example.codec Example.clauses
            1 Example.model _ _ _ _)).
  - apply reference_equals_exact, example_lits_in_range.
  - apply surjective_pairing.
Defined.

(** ** Round-robin interleaving *)

Lemma interleave_swap_bounded {A} (n : nat) :
  forall (a b : list A) (x : A),
    (length a + length b <= n)%nat ->
    interleave (x :: a) b = x :: interleave b a.
Proof.
  induction n as [|n IH]; intros a b x H.
  - destruct a, b; simpl in H; try lia. reflexivity.
  - destruct b as [|y b]; [now destruct a|].
    cbn [interleave]. f_equal. f_equal.
    destruct a as [|z a]; [reflexivity|].
    change (interleave (z :: a) b = z :: interleave b a).
    apply IH. simpl in H. lia.
Qed.

Lemma interleave_swap {A} (a b : list A) (x : A) :
  interleave (x :: a) b = x :: interleave b a.
Proof. now apply (interleave_swap_bounded (length a + length b)). Qed.

Lemma pull_yield {A} (t pre rest : list (event A)) (x : A) :
  pull t = (pre, Some (x, rest)) ->
  items t = x :: items rest /\ items pre = []
  /\ queries t = queries pre ++ queries rest.
Proof.
  revert pre. induction t as [|[q|y] t IH]; intros pre; simpl.
  - discriminate.
  - destruct (pull t) as [pre' r] eqn:E. intros [= <- ->].
    destruct (IH pre' eq_refl) as (H1 & H2 & H3). simpl. rewrite H3. auto.
  - intros [= <- <- <-]. auto.
Qed.

Lemma pull_none {A} (t pre : list (event A)) :
  pull t = (pre, None) -> pre = t /\ items t = [].
Proof.
  revert pre. induction t as [|[q|y] t IH]; intros pre; simpl.
  - intros [= <-]. auto.
  - destruct (pull t) as [pre' r] eqn:E. intros [= <- ->].
    destruct (IH pre' eq_refl) as (-> & H). auto.
  - discriminate.
Qed.

(** When the generator that runs out of values first ends normally,
    round-robin alternates the values of the two, then drains the other
    one and ends the way it does. *)
Lemma roundrobin_from_items {A} (n : nat) :
  forall (cur other : Gen A),
    (length (items (fst cur)) + length (items (fst other)) < n)%nat ->
    (snd cur = Some Stop ->
     (length (items (fst cur)) <= length (items (fst other)))%nat ->
     items (fst (roundrobin_from n cur other))
       = interleave (items (fst cur)) (items (fst other))
     /\ snd (roundrobin_from n cur other) = snd other)
    /\ (snd other = Some Stop ->
        (length (items (fst other)) < length (items (fst cur)))%nat ->
        items (fst (roundrobin_from n cur other))
          = interleave (items (fst cur)) (items (fst other))
        /\ snd (roundrobin_from n cur other) = snd cur).
Proof.
  induction n as [|n IH]; intros [tc ec] [to eo] Hn; simpl in *; [lia|].
  destruct (pull tc) as [pre [[x rest]|]] eqn:E.
  - destruct (pull_yield _ _ _ _ E) as (H1 & H2 & _).
    destruct (roundrobin_from n (to, eo) (rest, ec)) as [t e] eqn:R.
    destruct (IH (to, eo) (rest, ec)) as [I1 I2].
    { simpl. rewrite H1 in Hn. simpl in Hn. lia. }
    rewrite R in I1, I2. simpl in *.
    rewrite items_app, H2, H1, interleave_swap.
    change (items (Yield x :: t)) with (x :: items t). simpl length.
    split; intros Hs Hl.
    + simpl in Hl. destruct I2 as [-> ->]; auto; lia.
    + simpl in Hl. destruct I1 as [-> ->]; auto; lia.
  - destruct (pull_none _ _ E) as (-> & H). rewrite H. simpl. split.
    + intros -> _. simpl. rewrite items_app, H. auto.
    + intros _ Hl. lia.
Qed.

Lemma roundrobin_items {A} (a b : Gen A) :
  (snd a = Some Stop ->
   (length (items (fst a)) <= length (items (fst b)))%nat ->
   items (fst (roundrobin a b)) = interleave (items (fst a)) (items (fst b))
   /\ snd (roundrobin a b) = snd b)
  /\ (snd b = Some Stop ->
      (length (items (fst b)) < length (items (fst a)))%nat ->
      items (fst (roundrobin a b)) = interleave (items (fst a)) (items (fst b))
      /\ snd (roundrobin a b) = snd a).
Proof. apply roundrobin_from_items. lia. Qed.

(** ** The two conjectures about the empty word *)

Section Duality.

Variable solver_fact : SolverFact.
Variable card : CardEnc.
Variable SymMode : Type.
Variable symmetry_clauses : SymMode -> APTA -> Codec -> Clauses.
Variable sym_mode : SymMode.
Variable extra_clauses : Codec -> Clauses.
Variable bounds : Bounds.
Variable order_by_stutter : bool.

(** C3. With no examples and an alphabet, [find_models] runs itself on
    the accepted empty word and on the rejected empty word and yields
    the round-robin of the two runs: their values alternate, and when the
    one that runs out first has ended, the rest of the other follows. *)
Theorem empty_word_duality
    (fuel : nat) (alphabet : option (list Symbol)) (allow_unminimized : bool) :
  falsy alphabet = false ->
  find_models solver_fact card SymMode symmetry_clauses sym_mode
         extra_clauses bounds order_by_stutter
         (S fuel) [] [] alphabet allow_unminimized
  = roundrobin
      (find_models solver_fact card SymMode symmetry_clauses sym_mode
         extra_clauses bounds order_by_stutter
         fuel [[]] [] alphabet allow_unminimized)
      (find_models solver_fact card SymMode symmetry_clauses sym_mode
         extra_clauses bounds order_by_stutter
         fuel [] [[]] alphabet allow_unminimized)
  /\ (snd (find_models solver_fact card SymMode symmetry_clauses sym_mode
         extra_clauses bounds order_by_stutter
         fuel [[]] [] alphabet allow_unminimized) = Some Stop ->
      (length (items (fst (find_models solver_fact card SymMode symmetry_clauses sym_mode
         extra_clauses bounds order_by_stutter
         fuel [[]] [] alphabet allow_unminimized)))
       <= length (items (fst (find_models solver_fact card SymMode symmetry_clauses sym_mode
         extra_clauses bounds order_by_stutter
         fuel [] [[]] alphabet allow_unminimized))))%nat ->
      items (fst (find_models solver_fact card SymMode symmetry_clauses sym_mode
         extra_clauses bounds order_by_stutter
         (S fuel) [] [] alphabet allow_unminimized))
      = interleave
          (items (fst (find_models solver_fact card SymMode symmetry_clauses sym_mode
         extra_clauses bounds order_by_stutter
         fuel [[]] [] alphabet allow_unminimized)))
          (items (fst (find_models solver_fact card SymMode symmetry_clauses sym_mode
         extra_clauses bounds order_by_stutter
         fuel [] [[]] alphabet allow_unminimized)))
      /\ snd (find_models solver_fact card SymMode symmetry_clauses sym_mode
         extra_clauses bounds order_by_stutter
         (S fuel) [] [] alphabet allow_unminimized)
        = snd (find_models solver_fact card SymMode symmetry_clauses sym_mode
         extra_clauses bounds order_by_stutter
         fuel [] [[]] alphabet allow_unminimized))
  /\ (snd (find_models solver_fact card SymMode symmetry_clauses sym_mode
         extra_clauses bounds order_by_stutter
         fuel [] [[]] alphabet allow_unminimized) = Some Stop ->
      (length (items (fst (find_models solver_fact card SymMode symmetry_clauses sym_mode
         extra_clauses bounds order_by_stutter
         fuel [] [[]] alphabet allow_unminimized)))
       < length (items (fst (find_models solver_fact card SymMode symmetry_clauses sym_mode
         extra_clauses bounds order_by_stutter
         fuel [[]] [] alphabet allow_unminimized))))%nat ->
      items (fst (find_models solver_fact card SymMode symmetry_clauses sym_mode
         extra_clauses bounds order_by_stutter
         (S fuel) [] [] alphabet allow_unminimized))
      = interleave
          (items (fst (find_models solver_fact card SymMode symmetry_clauses sym_mode
         extra_clauses bounds order_by_stutter
         fuel [[]] [] alphabet allow_unminimized)))
          (items (fst (find_models solver_fact card SymMode symmetry_clauses sym_mode
         extra_clauses bounds order_by_stutter
         fuel [] [[]] alphabet allow_unminimized)))
      /\ snd (find_models solver_fact card SymMode symmetry_clauses sym_mode
         extra_clauses bounds order_by_stutter
         (S fuel) [] [] alphabet allow_unminimized)
        = snd (find_models solver_fact card SymMode symmetry_clauses sym_mode
         extra_clauses bounds order_by_stutter
         fuel [[]] [] alphabet allow_unminimized)).
Proof.
  intros Hf.
  assert (E : find_models solver_fact card SymMode symmetry_clauses sym_mode
         extra_clauses bounds order_by_stutter
         (S fuel) [] [] alphabet allow_unminimized
              = roundrobin
                  (find_models solver_fact card SymMode symmetry_clauses sym_mode
         extra_clauses bounds order_by_stutter
         fuel [[]] [] alphabet allow_unminimized)
                  (find_models solver_fact card SymMode symmetry_clauses sym_mode
         extra_clauses bounds order_by_stutter
         fuel [] [[]] alphabet allow_unminimized)).
  { cbn [find_models contradictory existsb length Nat.eqb andb].
    now rewrite Hf. }
  split; [exact E|]. rewrite E. apply roundrobin_items.
Qed.

End Duality.

(** ** The order of the candidate sizes *)

Section Minimality.

Variable solver_fact : SolverFact.
Variable card : CardEnc.
Variable order_by_stutter : bool.
Variable encodings : nat -> option (Codec * Clauses).

Local Abbreviation loop' := (loop solver_fact card order_by_stutter).
Local Abbreviation loop_body' := (loop_body solver_fact card order_by_stutter).
Local Abbreviation unsat_at i :=
  (encodings i <> None /\ satisfiable_at solver_fact encodings i = false).

Lemma loop_body_unsat fuel allow codec clauses :
  solve solver_fact clauses = false ->
  loop_body' fuel allow codec clauses = ([Query clauses], Some Continue).
Proof. intros H. unfold loop_body. now rewrite H. Qed.

(** Unsatisfiable sizes are passed over: they yield nothing. *)
Lemma loop_skips (allow : bool) (j : nat) :
  forall fuel i,
    (forall i', (i <= i' < i + j)%nat -> unsat_at i') ->
    items (fst (loop' (j + fuel) encodings allow i))
      = items (fst (loop' fuel encodings allow (i + j)))
    /\ snd (loop' (j + fuel) encodings allow i)
      = snd (loop' fuel encodings allow (i + j)).
Proof.
  induction j as [|j IH]; intros fuel i H.
  - rewrite Nat.add_0_r. auto.
  - destruct (H i ltac:(lia)) as [Hd Hu].
    unfold satisfiable_at in Hu. change (S j + fuel)%nat with (S (j + fuel)).
    cbn [loop]. destruct (encodings i) as [[codec clauses]|]; [|congruence].
    rewrite (loop_body_unsat _ _ _ _ Hu).
    destruct (IH fuel (S i)) as [I1 I2]; [intros; apply H; lia|].
    replace (i + S j)%nat with (S i + j)%nat by lia.
    destruct (loop' (j + fuel) encodings allow (S i)) as [t e].
    simpl in *. auto.
Qed.

(** The values of one pass all carry the codec of that pass. *)
Lemma loop_body_codec fuel allow codec clauses cm :
  In cm (items (fst (loop_body' fuel allow codec clauses))) -> fst cm = codec.
Proof.
  unfold loop_body. destruct (negb (solve solver_fact clauses)); [intros []|].
  destruct (negb order_by_stutter).
  - simpl. rewrite (items_map_Yield_with (A:=Item) (pair codec)).
    intros H. apply in_map_iff in H. now destruct H as (m & <- & _).
  - destruct (Stutter.order_models_by_stutter _ _ _ _ _ _) as [t e].
    simpl. rewrite items_map_event.
    intros H. apply in_map_iff in H. now destruct H as (m & <- & _).
Qed.

(** Without [allow_unminimized], every value the loop yields carries
    the codec of the first satisfiable position. *)
Lemma loop_first_codec (j : nat) (codec : Codec) (clauses : Clauses) :
  encodings j = Some (codec, clauses) ->
  solve solver_fact clauses = true ->
  forall fuel i,
    (i <= j)%nat ->
    (forall i', (i <= i' < j)%nat -> unsat_at i') ->
    forall cm, In cm (items (fst (loop' fuel encodings false i))) ->
               fst cm = codec.
Proof.
  intros Ej Hs. induction fuel as [|fuel IH]; intros i Hi Hu cm; [intros []|].
  cbn [loop]. destruct (Nat.eq_dec i j) as [->|Hne].
  - rewrite Ej.
    pose proof (loop_body_codec fuel false codec clauses cm) as Hc.
    assert (Hn : snd (loop_body' fuel false codec clauses) <> Some Continue).
    { unfold loop_body. rewrite Hs. simpl.
      destruct (negb order_by_stutter); simpl; [discriminate|].
      destruct (Stutter.order_models_by_stutter _ _ _ _ _ _) as [t [[|ex]|]];
        simpl; discriminate. }
    destruct (loop_body' fuel false codec clauses) as [t [[| |ex]|]];
      simpl in *; auto. congruence.
  - destruct (Hu i ltac:(lia)) as [Hd Hun]. unfold satisfiable_at in Hun.
    destruct (encodings i) as [[codec' clauses']|]; [|congruence].
    rewrite (loop_body_unsat _ _ _ _ Hun).
    specialize (IH (S i) ltac:(lia) ltac:(intros; apply Hu; lia) cm).
    destruct (loop' fuel encodings false (S i)) as [t e]. simpl in *. exact IH.
Qed.

(** With stutter ordering the values of a satisfiable position are those
    of the optimizer. *)
Lemma loop_body_stutter fuel allow codec clauses :
  order_by_stutter = true ->
  solve solver_fact clauses = true ->
  loop_body solver_fact card order_by_stutter fuel allow codec clauses
  = (Query clauses
       :: map (map_event (pair codec))
            (fst (Stutter.order_models_by_stutter solver_fact card codec clauses fuel
          (get_model solver_fact clauses))),
     match snd (Stutter.order_models_by_stutter solver_fact card codec clauses fuel
          (get_model solver_fact clauses)) with
     | None => None
     | Some Stop => Some (after_models allow)
     | Some (Raised ex) => Some (Throw ex)
     end).
Proof.
  intros Ho Hs. unfold loop_body. rewrite Hs, Ho. cbn [negb].
  now destruct (Stutter.order_models_by_stutter _ _ _ _ _ _).
Qed.

(** With stutter ordering and without [allow_unminimized], the loop
    yields at the first satisfiable position what the optimizer emits
    there, and ends as the optimizer ends. *)
Lemma loop_first_stutter (j : nat) (codec : Codec) (clauses : Clauses) :
  order_by_stutter = true ->
  encodings j = Some (codec, clauses) ->
  solve solver_fact clauses = true ->
  forall fuel,
    items (fst (loop' (S fuel) encodings false j))
      = stutter_models_at solver_fact card fuel encodings j
    /\ snd (loop' (S fuel) encodings false j)
       = snd (Stutter.order_models_by_stutter solver_fact card codec clauses
                fuel (get_model solver_fact clauses)).
Proof.
  intros Ho Ej Hs fuel. unfold stutter_models_at. cbn [loop].
  rewrite Ej, Hs, (loop_body_stutter _ _ _ _ Ho Hs).
  destruct (Stutter.order_models_by_stutter _ _ _ _ _ _) as [t [[|ex]|]];
    cbn [fst snd after_models items]; rewrite items_map_event; auto.
Qed.

(** With stutter ordering and [allow_unminimized], the loop goes from
    position to position for as long as the optimizer ends normally. *)
Lemma loop_stutter_all (F : nat) :
  order_by_stutter = true ->
  forall n i M,
    (forall i', (i <= i' < i + n)%nat -> encodings i' <> None) ->
    (forall i' codec clauses,
       (i <= i' < i + n)%nat ->
       encodings i' = Some (codec, clauses) ->
       solve solver_fact clauses = true ->
       snd (Stutter.order_models_by_stutter solver_fact card codec clauses
              F (get_model solver_fact clauses)) = Some Stop) ->
    (F <= M)%nat ->
    items (fst (loop' (n + M) encodings true i))
      = flat_map (stutter_models_at solver_fact card F encodings) (seq i n)
          ++ items (fst (loop' M encodings true (i + n)))
    /\ snd (loop' (n + M) encodings true i)
       = snd (loop' M encodings true (i + n)).
Proof.
  intros Ho. induction n as [|n IH]; intros i M Hd Hend HF.
  - rewrite Nat.add_0_r. auto.
  - destruct (IH (S i) M) as [I1 I2];
      [intros; apply Hd; lia | intros; eapply Hend; eauto; lia | exact HF |].
    replace (i + S n)%nat with (S i + n)%nat by lia.
    change (S n + M)%nat with (S (n + M)). cbn [loop seq flat_map].
    unfold stutter_models_at at 1.
    assert (Hi := Hd i ltac:(lia)).
    destruct (encodings i) as [[codec clauses]|] eqn:Ei; [|congruence].
    destruct (solve solver_fact clauses) eqn:Hs.
    + rewrite (loop_body_stutter _ _ _ _ Ho Hs).
      assert (E := Hend i codec clauses ltac:(lia) Ei Hs).
      rewrite (order_models_fuel_mono solver_fact card codec clauses
                 (get_model solver_fact clauses) F (n + M))
        by (try (rewrite E; discriminate); lia).
      rewrite E. cbn [after_models].
      destruct (loop' (n + M) encodings true (S i)) as [t e].
      cbn [fst snd items] in *.
      rewrite items_app. cbn [items].
      rewrite items_map_event, I1, app_assoc. auto.
    + rewrite (loop_body_unsat _ _ _ _ Hs).
      destruct (loop' (n + M) encodings true (S i)) as [t e].
      cbn [fst snd items app] in *. auto.
Qed.

Hypothesis plain_order : order_by_stutter = false.

(** At the first satisfiable position the loop yields all its models and
    returns. *)
Lemma loop_first_models (j : nat) :
  satisfiable_at solver_fact encodings j = true ->
  forall fuel,
    items (fst (loop' (S fuel) encodings false j))
      = models_at solver_fact encodings j
    /\ snd (loop' (S fuel) encodings false j) = Some Stop.
Proof.
  unfold satisfiable_at, models_at. intros Hs fuel. cbn [loop].
  destruct (encodings j) as [[codec clauses]|]; [|discriminate].
  unfold loop_body. rewrite Hs, plain_order. simpl.
  now rewrite (items_map_Yield_with (A:=Item) (pair codec)).
Qed.

(** With [allow_unminimized] the loop goes on: the models of every
    position, in the order of the positions. *)
Lemma loop_all_models :
  forall n i,
    (forall i', (i <= i' < i + n)%nat -> encodings i' <> None) ->
    items (fst (loop' n encodings true i))
      = flat_map (models_at solver_fact encodings) (seq i n)
    /\ (encodings (i + n)%nat = None ->
        items (fst (loop' (S n) encodings true i))
          = flat_map (models_at solver_fact encodings) (seq i n)
        /\ snd (loop' (S n) encodings true i) = Some Stop).
Proof.
  induction n as [|n IH]; intros i H.
  - split; [reflexivity|]. rewrite Nat.add_0_r. intros E. cbn [loop].
    now rewrite E.
  - assert (Hi := H i ltac:(lia)).
    destruct (IH (S i)) as [I1 I2]; [intros; apply H; lia|].
    replace (i + S n)%nat with (S i + n)%nat by lia.
    assert (Step : forall fuel,
               items (fst (loop' (S fuel) encodings true i))
               = models_at solver_fact encodings i
                   ++ items (fst (loop' fuel encodings true (S i)))
               /\ snd (loop' (S fuel) encodings true i)
                 = snd (loop' fuel encodings true (S i))).
    { intros fuel. cbn [loop]. unfold models_at.
      destruct (encodings i) as [[codec clauses]|]; [|congruence].
      destruct (loop' fuel encodings true (S i)) as [t e].
      unfold loop_body. rewrite plain_order.
      destruct (solve solver_fact clauses); simpl;
        rewrite ?items_app, ?(items_map_Yield_with (A:=Item) (pair codec)); auto. }
    split.
    + destruct (Step n) as [-> _]. cbn [seq flat_map]. now rewrite I1.
    + intros E. destruct (I2 E) as [J1 J2].
      destruct (Step (S n)) as [-> ->]. cbn [seq flat_map].
      now rewrite J1.
Qed.

End Minimality.

Section MinimalSize.

Variable solver_fact : SolverFact.
Variable card : CardEnc.
Variable SymMode : Type.
Variable symmetry_clauses : SymMode -> APTA -> Codec -> Clauses.
Variable sym_mode : SymMode.
Variable extra_clauses : Codec -> Clauses.
Variable bounds : Bounds.
Variable order_by_stutter : bool.

Lemma find_models_main
    (fuel : nat) (accepting rejecting : list Word)
    (alphabet : option (list Symbol)) (allow_unminimized : bool) :
  contradictory accepting rejecting = false ->
  accepting ++ rejecting <> [] ->
  find_models solver_fact card SymMode symmetry_clauses sym_mode
       extra_clauses bounds order_by_stutter
       (S fuel) accepting rejecting alphabet allow_unminimized
  = loop solver_fact card order_by_stutter fuel
      (dfa_id_encodings SymMode symmetry_clauses sym_mode extra_clauses bounds
       (from_examples accepting rejecting alphabet) allow_unminimized)
      allow_unminimized 0.
Proof.
  intros Hc Hne. cbn [find_models]. rewrite Hc.
  destruct accepting, rejecting; simpl; try reflexivity.
  - now destruct Hne.
  - rewrite andb_false_r. reflexivity.
Qed.

Lemma dfa_id_encodings_size
    (apta : APTA) (allow : bool) (i : nat) (codec : Codec) (clauses : Clauses) :
  dfa_id_encodings SymMode symmetry_clauses sym_mode extra_clauses bounds
                   apta allow i = Some (codec, clauses) ->
  n_colors codec = (first_size bounds + i)%nat.
Proof.
  unfold dfa_id_encodings.
  destruct (snd bounds) as [hi|]; [destruct (Nat.ltb _ _); [discriminate|]|];
    intros [= <- _]; reflexivity.
Qed.


End MinimalSize.

(** ** The prefix automaton *)

Lemma prefixes_spec (w p : Word) :
  In p (prefixes w) <-> exists s, w = p ++ s.
Proof.
  revert p. induction w as [|a w IH]; intros p; cbn [prefixes].
  - split.
    + intros [<-|[]]. now exists [].
    + intros (s & E). symmetry in E. apply app_eq_nil in E. left. now destruct E.
  - split.
    + intros [<-|H]; [now exists (a :: w)|].
      apply in_map_iff in H. destruct H as (p' & <- & H).
      apply IH in H. destruct H as (s & ->). now exists s.
    + intros (s & E). destruct p as [|b p]; [now left|]. right.
      injection E as <- E. apply in_map_iff. exists p. split; auto.
      apply IH. now exists s.
Qed.

Lemma add_word_In (l : list Word) (w p : Word) :
  In p (add_word l w) <-> In p l \/ p = w.
Proof.
  unfold add_word. destruct (mem_word w l) eqn:E.
  - apply mem_word_In in E. split; [auto|]. intros [H| ->]; auto.
  - rewrite in_app_iff. simpl. intuition.
Qed.

Lemma fold_add_word_In (xs init : list Word) (p : Word) :
  In p (fold_left add_word xs init) <-> In p init \/ In p xs.
Proof.
  revert init. induction xs as [|x xs IH]; intros init; simpl.
  - tauto.
  - rewrite IH, add_word_In. intuition.
Qed.

Lemma add_symbol_In (l : list Symbol) (a b : Symbol) :
  In b (add_symbol l a) <-> In b l \/ b = a.
Proof.
  unfold add_symbol. destruct (mem_symbol a l) eqn:E.
  - apply mem_symbol_In in E. split; [auto|]. intros [H| ->]; auto.
  - rewrite in_app_iff. simpl. intuition.
Qed.

Lemma fold_add_symbol_In (xs init : list Symbol) (b : Symbol) :
  In b (fold_left add_symbol xs init) <-> In b init \/ In b xs.
Proof.
  revert init. induction xs as [|x xs IH]; intros init; simpl.
  - tauto.
  - rewrite IH, add_symbol_In. intuition.
Qed.

Lemma max_length_bound (ws : list Word) (w : Word) :
  In w ws -> (length w <= max_length ws)%nat.
Proof.
  induction ws as [|x ws IH]; simpl; [tauto|].
  intros [->|H]; [lia|]. specialize (IH H). lia.
Qed.

Lemma bfs_order_In (ps : list Word) (p : Word) :
  In p (bfs_order ps) <-> In p ps.
Proof.
  unfold bfs_order. rewrite in_flat_map. split.
  - intros (d & _ & H). apply filter_In in H. tauto.
  - intros H. exists (length p). split.
    + apply in_seq. pose proof (max_length_bound _ _ H). lia.
    + apply filter_In. split; auto. apply Nat.eqb_refl.
Qed.

Lemma bfs_order_root (ps : list Word) :
  In [] ps -> exists rest, bfs_order ps = [] :: rest.
Proof.
  intros H. unfold bfs_order. cbn [seq flat_map].
  match goal with
  | |- context [filter ?f ps ++ _] => set (level0 := filter f ps)
  end.
  assert (F : In [] level0) by (apply filter_In; auto).
  assert (Z0 : forall x, In x level0 -> x = []).
  { intros x Hx. apply filter_In in Hx. destruct Hx as [_ Hx].
    apply Nat.eqb_eq in Hx. now destruct x. }
  destruct level0 as [|x xs]; [destruct F|].
  rewrite (Z0 x) by now left. simpl. eauto.
Qed.

(** *** Positions in a list *)

Lemma index_of_nth {A} (eqb : A -> A -> bool) (x : A) (l : list A) (i : nat) :
  index_of eqb x l = Some i ->
  exists y, nth_error l i = Some y /\ eqb x y = true.
Proof.
  revert i. induction l as [|y l IH]; intros i; simpl; [discriminate|].
  destruct (eqb x y) eqn:E.
  - intros [= <-]. exists y. auto.
  - destruct (index_of eqb x l) as [j|]; [|discriminate].
    intros [= <-]. apply (IH j eq_refl).
Qed.

Lemma index_of_In {A} (eqb : A -> A -> bool) (x : A) (l : list A) :
  (forall y, eqb y y = true) -> In x l -> exists i, index_of eqb x l = Some i.
Proof.
  intros R. induction l as [|y l IH]; simpl; [tauto|].
  intros H. destruct (eqb x y) eqn:E; [eauto|].
  destruct H as [->|H]; [rewrite R in E; discriminate|].
  destruct (IH H) as (i & ->). eauto.
Qed.

Lemma in_combine_seq {A} (l : list A) (s n : nat) (x : A) :
  nth_error l n = Some x -> In ((s + n)%nat, x) (combine (seq s (length l)) l).
Proof.
  revert s n. induction l as [|y l IH]; intros s [|n]; simpl; try discriminate.
  - intros [= ->]. left. f_equal. lia.
  - intros H. right. replace (s + S n)%nat with (S s + n)%nat by lia.
    now apply IH.
Qed.

Lemma word_eqb_refl (w : Word) : word_eqb w w = true.
Proof. now apply word_eqb_eq. Qed.

Lemma symbol_eqb_refl (a : Symbol) : symbol_eqb a a = true.
Proof. now apply symbol_eqb_eq. Qed.

(** ** Models of the encoding decode to consistent automata *)

Section Decoding.

Variable codec : Codec.
Variable m : Model.

Lemma lit_true_pos (v : Z) : 0 < v -> lit_true m v = var_true m v.
Proof.
  intros H. unfold lit_true.
  now replace (v >? 0) with true by (symmetry; apply Z.gtb_lt; lia).
Qed.

Lemma lit_true_neg (v : Z) : 0 < v -> lit_true m (- v) = negb (var_true m v).
Proof.
  intros H. unfold lit_true.
  replace (- v >? 0) with false
    by (symmetry; rewrite Z.gtb_ltb; apply Z.ltb_ge; lia).
  now rewrite Z.opp_involutive.
Qed.

Lemma accepting_var_pos (c : nat) : 0 < accepting_var c.
Proof. unfold accepting_var. lia. Qed.

Lemma color_var_pos (n c : nat) : 0 < color_var codec n c.
Proof. unfold color_var, K. nia. Qed.

Lemma transition_var_pos (c1 a c2 : nat) : 0 < transition_var codec c1 a c2.
Proof. unfold transition_var, K, N, S_. nia. Qed.

Section ExactlyOne.

Variable f : nat -> Z.
Hypothesis f_pos : forall c, 0 < f c.
Hypothesis clauses_true :
  forall cl, In cl (exactly_one codec f) -> clause_true m cl = true.

Lemma pick_color_true :
  var_true m (f (pick_color codec m f)) = true
  /\ In (pick_color codec m f) (colors codec).
Proof.
  assert (H : clause_true m (map f (colors codec)) = true)
    by (apply clauses_true; now left).
  unfold clause_true in H. rewrite existsb_map in H.
  apply existsb_exists in H. destruct H as (c & Hc & Ht).
  rewrite lit_true_pos in Ht by apply f_pos.
  unfold pick_color.
  assert (F : In c (filter (fun c => var_true m (f c)) (colors codec)))
    by (apply filter_In; auto).
  destruct (filter (fun c => var_true m (f c)) (colors codec)) as [|c0 r] eqn:E;
    [destruct F|].
  assert (F0 : In c0 (filter (fun c => var_true m (f c)) (colors codec)))
    by (rewrite E; now left).
  apply filter_In in F0. simpl. tauto.
Qed.

Lemma at_most_one_clause (c1 c2 : nat) :
  In c1 (colors codec) -> In c2 (colors codec) -> (c1 < c2)%nat ->
  In [- f c1; - f c2] (exactly_one codec f).
Proof.
  intros H1 H2 Hlt. right. apply in_flat_map. exists c1. split; auto.
  apply in_flat_map. exists c2. split; auto.
  apply Nat.ltb_lt in Hlt. rewrite Hlt. now left.
Qed.

Lemma not_both (c1 c2 : nat) :
  In c1 (colors codec) -> In c2 (colors codec) -> (c1 < c2)%nat ->
  var_true m (f c1) = true -> var_true m (f c2) = true -> False.
Proof.
  intros H1 H2 Hlt T1 T2.
  pose proof (clauses_true _ (at_most_one_clause c1 c2 H1 H2 Hlt)) as H.
  unfold clause_true in H. cbn [existsb] in H.
  rewrite !lit_true_neg, T1, T2 in H by apply f_pos. discriminate.
Qed.

Lemma color_unique (c1 c2 : nat) :
  In c1 (colors codec) -> In c2 (colors codec) ->
  var_true m (f c1) = true -> var_true m (f c2) = true -> c1 = c2.
Proof.
  intros H1 H2 T1 T2.
  destruct (Nat.lt_trichotomy c1 c2) as [L|[E|L]]; auto; exfalso.
  - eapply (not_both c1 c2); eauto.
  - eapply (not_both c2 c1); eauto.
Qed.

Lemma pick_color_unique (c : nat) :
  In c (colors codec) -> var_true m (f c) = true -> pick_color codec m f = c.
Proof.
  intros H T. destruct pick_color_true as [T0 H0].
  apply color_unique; auto.
Qed.

End ExactlyOne.

End Decoding.

Lemma run_app (d : DFA) (q : nat) (u v : Word) :
  run d q (u ++ v)
  = match run d q u with
    | Some q' => run d q' v
    | None => None
    end.
Proof.
  revert q. induction u as [|a u IH]; intros q; simpl; [reflexivity|].
  destruct (transition d q a); auto.
Qed.

Section Consistency.

Variable accepting rejecting : list Word.
Variable given : option (list Symbol).
Variable k : nat.
Variable m : Model.

Local Abbreviation apta := (from_examples accepting rejecting given).
Local Abbreviation codec := (make_codec apta k).
Local Abbreviation node_prefixes :=
  (bfs_order (distinct_prefixes (accepting ++ rejecting))).
Local Abbreviation col n := (pick_color codec m (color_var codec n)).

Hypothesis consistent : contradictory accepting rejecting = false.
Hypothesis covered :
  forall w a, In w (accepting ++ rejecting) -> In a w ->
              In a (alphabet apta).
Hypothesis model_of_base : satisfies m (base_clauses apta codec) = true.

Lemma nodes_fst : map fst (nodes apta) = node_prefixes.
Proof.
  simpl. rewrite map_map. simpl. apply map_id.
Qed.

Lemma node_prefix_In (p : Word) :
  In p node_prefixes
  <-> p = [] \/ exists w s, In w (accepting ++ rejecting) /\ w = p ++ s.
Proof.
  rewrite bfs_order_In. unfold distinct_prefixes.
  rewrite fold_add_word_In, in_flat_map. simpl. split.
  - intros [[<-|[]]|(w & Hw & Hp)]; [now left|].
    apply prefixes_spec in Hp. destruct Hp as (s & ->). right. eauto.
  - intros [->|(w & s & Hw & ->)]; [auto|]. right. exists (p ++ s).
    split; auto. apply prefixes_spec. eauto.
Qed.

Lemma node_of_root : node_of apta [] = Some 0%nat.
Proof.
  unfold node_of. rewrite nodes_fst.
  destruct (bfs_order_root (distinct_prefixes (accepting ++ rejecting)))
    as (rest & ->); [|reflexivity].
  unfold distinct_prefixes. apply fold_add_word_In. left. now left.
Qed.

Lemma node_of_some (p : Word) :
  In p node_prefixes -> exists n, node_of apta p = Some n.
Proof.
  intros H. unfold node_of. rewrite nodes_fst.
  apply index_of_In; [apply word_eqb_refl | exact H].
Qed.

Lemma node_of_nth (p : Word) (n : nat) :
  node_of apta p = Some n ->
  nth_error (nodes apta) n = Some (p, node_label accepting rejecting p).
Proof.
  unfold node_of. rewrite nodes_fst. intros H.
  apply index_of_nth in H. destruct H as (y & Hy & E).
  apply word_eqb_eq in E. subst y. simpl.
  now apply (map_nth_error (fun p => (p, node_label accepting rejecting p))).
Qed.

Lemma node_of_lt (p : Word) (n : nat) :
  node_of apta p = Some n -> (n < length (nodes apta))%nat.
Proof.
  intros H. apply node_of_nth in H. apply nth_error_Some. congruence.
Qed.

Lemma base_clause_true (cl : Clause) :
  In cl (base_clauses apta codec) -> clause_true m cl = true.
Proof.
  intros H. unfold satisfies in model_of_base.
  rewrite forallb_forall in model_of_base. auto.
Qed.

Lemma coloring_true (n : nat) (cl : Clause) :
  (n < length (nodes apta))%nat ->
  In cl (exactly_one codec (color_var codec n)) -> clause_true m cl = true.
Proof.
  intros Hn H. apply base_clause_true. unfold base_clauses.
  apply in_or_app. left. unfold coloring_clauses. apply in_flat_map.
  exists n. split; auto. apply in_seq. lia.
Qed.

Lemma determinism_true (c1 a : nat) (cl : Clause) :
  In c1 (colors codec) -> In a (symbol_ids codec) ->
  In cl (exactly_one codec (transition_var codec c1 a)) ->
  clause_true m cl = true.
Proof.
  intros H1 Ha H. apply base_clause_true. unfold base_clauses.
  apply in_or_app. right. apply in_or_app. left.
  unfold determinism_clauses. apply in_flat_map. exists c1. split; auto.
  apply in_flat_map. exists a. split; auto.
Qed.

Lemma col_true (n : nat) :
  (n < length (nodes apta))%nat ->
  var_true m (color_var codec n (col n)) = true /\ In (col n) (colors codec).
Proof.
  intros Hn. apply pick_color_true.
  - apply color_var_pos.
  - intros cl. now apply coloring_true.
Qed.

Lemma edge_clause_true (u v i : nat) (a : Symbol) (c1 c2 : nat) :
  In (u, a, v) (edges apta) ->
  index_of symbol_eqb a (symbols codec) = Some i ->
  In c1 (colors codec) -> In c2 (colors codec) ->
  clause_true m [- color_var codec u c1; - color_var codec v c2;
                 transition_var codec c1 i c2] = true.
Proof.
  intros He Hi H1 H2. apply base_clause_true. unfold base_clauses.
  apply in_or_app. right. apply in_or_app. right. apply in_or_app. left.
  unfold edge_clauses. apply in_flat_map. exists (u, a, v). split; auto.
  rewrite Hi. apply in_flat_map. exists c1. split; auto.
  apply in_map_iff. exists c2. auto.
Qed.

Lemma label_clause_true (n : nat) (p : Word) (b : bool) (c : nat) :
  nth_error (nodes apta) n = Some (p, Some b) ->
  In c (colors codec) ->
  clause_true m [- color_var codec n c;
                 if b then accepting_var c else - accepting_var c] = true.
Proof.
  intros Hn Hc. apply base_clause_true. unfold base_clauses.
  apply in_or_app. right. apply in_or_app. right. apply in_or_app. right.
  unfold label_clauses. apply in_flat_map. exists (n, (p, Some b)). split.
  - apply (in_combine_seq (nodes apta) 0 n). exact Hn.
  - destruct b; apply in_map_iff; exists c; auto.
Qed.

Lemma edge_present (q : Word) (a : Symbol) (u v : nat) :
  node_of apta q = Some u -> node_of apta (q ++ [a]) = Some v ->
  In (u, a, v) (edges apta).
Proof.
  intros Hu Hv. unfold edges. apply in_flat_map.
  exists (v, (q ++ [a], node_label accepting rejecting (q ++ [a]))). split.
  - apply (in_combine_seq (nodes apta) 0 v). now apply node_of_nth.
  - cbn [fst snd]. unfold edge_into. rewrite rev_app_distr. cbn [rev app].
    rewrite rev_involutive, Hu. now left.
Qed.

(** The color of a node is the state the decoded automaton reaches on
    the prefix of that node. *)
Lemma run_reaches (p : Word) :
  In p node_prefixes ->
  forall n, node_of apta p = Some n ->
  run (extract_dfa codec m) (start (extract_dfa codec m)) p = Some (col n).
Proof.
  induction p as [|a q IH] using rev_ind; intros Hp n Hn.
  - rewrite node_of_root in Hn. injection Hn as <-. reflexivity.
  - assert (Hq : In q node_prefixes).
    { apply node_prefix_In in Hp. apply node_prefix_In.
      destruct Hp as [E|(w & s & Hw & ->)].
      - now destruct q.
      - right. exists ((q ++ [a]) ++ s), ([a] ++ s). split; auto.
        now rewrite <- app_assoc. }
    assert (Ha : In a (alphabet apta)).
    { apply node_prefix_In in Hp. destruct Hp as [E|(w & s & Hw & ->)].
      - now destruct q.
      - apply (covered _ a Hw). rewrite !in_app_iff. left. right. now left. }
    destruct (node_of_some q Hq) as (u & Hu).
    destruct (index_of_In symbol_eqb a (alphabet apta)
                          symbol_eqb_refl Ha) as (i & Hi).
    rewrite run_app, (IH Hq u Hu). cbn [run extract_dfa transition].
    change (symbols codec) with (alphabet apta). rewrite Hi.
    f_equal.
    pose proof (node_of_lt _ _ Hu) as Lu. pose proof (node_of_lt _ _ Hn) as Ln.
    destruct (col_true u Lu) as [Tu Cu]. destruct (col_true n Ln) as [Tn Cn].
    assert (Hid : In i (symbol_ids codec)).
    { apply index_of_nth in Hi. destruct Hi as (y & Hy & _).
      assert (Li : (i < length (alphabet apta))%nat)
        by (apply nth_error_Some; congruence).
      apply in_seq. change (symbols codec) with (alphabet apta). lia. }
    apply pick_color_unique; auto.
    + apply transition_var_pos.
    + intros cl. now apply determinism_true.
    + pose proof (edge_clause_true u n i a (col u) (col n)
                    (edge_present q a u n Hu Hn) Hi Cu Cn) as H.
      unfold clause_true in H. cbn [existsb] in H.
      rewrite !lit_true_neg, Tu, Tn in H by apply color_var_pos.
      rewrite lit_true_pos in H by apply transition_var_pos.
      simpl in H. now rewrite orb_false_r in H.
Qed.

Lemma example_is_node (w : Word) :
  In w (accepting ++ rejecting) -> In w node_prefixes.
Proof.
  intros H. apply node_prefix_In. right. exists w, []. split; auto.
  now rewrite app_nil_r.
Qed.

Lemma labeled_word (w : Word) (b : bool) :
  In w (accepting ++ rejecting) ->
  node_label accepting rejecting w = Some b ->
  label (extract_dfa codec m) w = Some b.
Proof.
  intros Hw Hl. pose proof (example_is_node w Hw) as Hn.
  destruct (node_of_some w Hn) as (n & En).
  unfold label. rewrite (run_reaches w Hn n En). cbn [option_map]. f_equal.
  pose proof (node_of_lt _ _ En) as Ln. destruct (col_true n Ln) as [Tn Cn].
  pose proof (node_of_nth _ _ En) as Hnth. rewrite Hl in Hnth.
  pose proof (label_clause_true n w b (col n) Hnth Cn) as H.
  unfold clause_true in H. cbn [existsb] in H.
  rewrite lit_true_neg, Tn in H by apply color_var_pos.
  cbn [extract_dfa accepts]. destruct b.
  - rewrite lit_true_pos in H by apply accepting_var_pos.
    simpl in H. now rewrite orb_false_r in H.
  - rewrite lit_true_neg in H by apply accepting_var_pos.
    simpl in H. rewrite orb_false_r in H. now apply negb_true_iff in H.
Qed.

Lemma decoded_consistent :
  (forall w, In w accepting -> label (extract_dfa codec m) w = Some true)
  /\ (forall w, In w rejecting -> label (extract_dfa codec m) w = Some false).
Proof.
  split; intros w Hw; apply labeled_word;
    try (apply in_or_app; auto); unfold node_label.
  - apply mem_word_In in Hw. now rewrite Hw.
  - destruct (mem_word w accepting) eqn:E.
    + apply mem_word_In in E.
      assert (C : contradictory accepting rejecting = true)
        by (apply contradictory_iff; eauto).
      congruence.
    + apply mem_word_In in Hw. now rewrite Hw.
Qed.

End Consistency.

(** ** Soundness of the driver *)

Section Soundness.

Variable solver_fact : SolverFact.
Variable card : CardEnc.
Variable SymMode : Type.
Variable symmetry_clauses : SymMode -> APTA -> Codec -> Clauses.
Variable sym_mode : SymMode.
Variable extra_clauses : Codec -> Clauses.
Variable bounds : Bounds.
Variable order_by_stutter : bool.

Hypothesis sound : oracle_sound solver_fact.

Lemma card_models_sound codec clauses mk top_id b w :
  In w (items (Stutter.find_models solver_fact codec clauses mk top_id b)) ->
  satisfies w clauses = true.
Proof.
  rewrite items_find_card_models. destruct (solve solver_fact _); [|intros []].
  intros H. apply sound in H. unfold Stutter.formula_query in H.
  rewrite satisfies_app in H. now apply andb_true_iff in H.
Qed.

Lemma sweep_sound codec clauses top_id w :
  forall bs cb,
    In w (items (fst (Stutter.sweep solver_fact card codec clauses
                                    top_id bs cb))) ->
    satisfies w clauses = true.
Proof.
  induction bs as [|b bs IH]; intros cb; cbn [Stutter.sweep]; [intros []|].
  assert (Step : forall cb',
             In w (items (Stutter.find_models solver_fact codec clauses
                            (equals card) top_id b
                          ++ fst (Stutter.sweep solver_fact card codec clauses
                                                top_id bs cb'))) ->
             satisfies w clauses = true).
  { intros cb'. rewrite items_app, in_app_iff.
    intros [H|H]; [eapply card_models_sound; eauto | eapply IH; eauto]. }
  destruct (b >? cb).
  - destruct (Stutter.first_model _ _ _ _ _ _) as [w0|]; [|intros []].
    destruct (Stutter.non_stutter_count codec w0) as [c|]; [|intros []].
    destruct (Stutter.sweep _ _ _ _ _ bs c) as [t e] eqn:E. cbn [fst items].
    intros H. apply (Step c). now rewrite E.
  - destruct (Stutter.sweep _ _ _ _ _ bs cb) as [t e] eqn:E. cbn [fst].
    intros H. apply (Step cb). now rewrite E.
Qed.

Lemma order_models_sound codec clauses fuel model w :
  In w (items (fst (Stutter.order_models_by_stutter
                      solver_fact card codec clauses fuel model))) ->
  satisfies w clauses = true.
Proof.
  unfold Stutter.order_models_by_stutter.
  destruct (py_max_map_max clauses) as [top0|]; [|intros []].
  destruct (Stutter.non_stutter_count codec model) as [hi|]; [|intros []].
  destruct (Stutter.search _ _ _ _ _ _ _ _) as [[qs [[lo1 hi1]|ex]]|];
    cbn [fst]; rewrite ?items_map_Query; try (intros []).
  destruct (Stutter.sweep _ _ _ _ _ _ hi) as [t e] eqn:E. cbn [fst].
  rewrite items_app, items_map_Query. cbn [app]. intros H.
  eapply sweep_sound. rewrite E. exact H.
Qed.

Lemma loop_body_sound fuel allow codec clauses cm :
  In cm (items (fst (loop_body solver_fact card order_by_stutter
                               fuel allow codec clauses))) ->
  fst cm = codec /\ satisfies (snd cm) clauses = true.
Proof.
  intros H. split; [eapply loop_body_codec; eauto|]. revert H.
  unfold loop_body. destruct (negb (solve solver_fact clauses)); [intros []|].
  destruct (negb order_by_stutter).
  - cbn [fst items]. rewrite (items_map_Yield_with (A:=Item) (pair codec)).
    intros H. apply in_map_iff in H. destruct H as (w & <- & H).
    now apply sound.
  - destruct (Stutter.order_models_by_stutter _ _ _ _ _ _) as [t e] eqn:E.
    cbn [fst items]. rewrite items_map_event.
    intros H. apply in_map_iff in H. destruct H as (w & <- & H).
    eapply order_models_sound. rewrite E. exact H.
Qed.

Lemma loop_sound apta allow cm :
  forall fuel i,
    In cm (items (fst (loop solver_fact card order_by_stutter fuel
                         (dfa_id_encodings SymMode symmetry_clauses sym_mode
                            extra_clauses bounds apta allow)
                         allow i))) ->
    exists k, fst cm = make_codec apta k
              /\ satisfies (snd cm) (base_clauses apta (fst cm)) = true.
Proof.
  induction fuel as [|fuel IH]; intros i; cbn [loop]; [intros []|].
  destruct (dfa_id_encodings _ _ _ _ _ _ _ i) as [[codec clauses]|] eqn:E;
    [|intros []].
  assert (Here : In cm (items (fst (loop_body solver_fact card order_by_stutter
                                              fuel allow codec clauses))) ->
                 exists k, fst cm = make_codec apta k
                   /\ satisfies (snd cm) (base_clauses apta (fst cm)) = true).
  { intros H. apply loop_body_sound in H. destruct H as [-> H].
    unfold dfa_id_encodings in E.
    assert (E' : (codec, clauses)
                 = (make_codec apta (first_size bounds + i),
                    base_clauses apta (make_codec apta (first_size bounds + i))
                      ++ symmetry_clauses sym_mode apta
                           (make_codec apta (first_size bounds + i))
                      ++ extra_clauses
                           (make_codec apta (first_size bounds + i))))
      by (destruct (snd bounds);
          [destruct (Nat.ltb _ _); [discriminate|]|]; congruence).
    injection E' as -> ->. exists (first_size bounds + i)%nat.
    split; auto. rewrite satisfies_app in H. now apply andb_true_iff in H. }
  destruct (loop_body _ _ _ _ _ _ _) as [t [[| |ex]|]]; cbn [fst] in *; auto.
  specialize (IH (S i)).
  destruct (loop _ _ _ _ _ _ (S i)) as [t' e']. cbn [fst] in *.
  rewrite items_app, in_app_iff. intros [H|H]; auto.
Qed.

Lemma alphabet_covers accepting rejecting given :
  (forall sigma, given = Some sigma ->
     forall w a, In w (accepting ++ rejecting) -> In a w -> In a sigma) ->
  forall w a, In w (accepting ++ rejecting) -> In a w ->
              In a (alphabet (from_examples accepting rejecting given)).
Proof.
  intros H w a Hw Ha. cbn [from_examples alphabet]. destruct given as [sigma|].
  - apply fold_add_symbol_In. right. eapply H; eauto.
  - unfold symbols_of. apply fold_add_symbol_In. right.
    apply in_concat. eauto.
Qed.

(** C1. Every automaton [find_dfas] yields, and the one [find_dfa]
    returns, accepts each accepting word and rejects each rejecting word. *)
Theorem find_dfas_sound
    (accepting rejecting : list Word) (given : option (list Symbol)) :
  (forall sigma, given = Some sigma ->
     forall w a, In w (accepting ++ rejecting) -> In a w -> In a sigma) ->
  (forall fuel allow_unminimized d,
     In d (items (fst (find_dfas solver_fact card SymMode symmetry_clauses sym_mode
       extra_clauses bounds order_by_stutter
       fuel accepting rejecting given allow_unminimized))) ->
     (forall w, In w accepting -> label d w = Some true)
     /\ (forall w, In w rejecting -> label d w = Some false))
  /\ (forall fuel d,
        find_dfa solver_fact card SymMode symmetry_clauses sym_mode
       extra_clauses bounds order_by_stutter
       fuel accepting rejecting given = Some (Ok (Some d)) ->
        (forall w, In w accepting -> label d w = Some true)
        /\ (forall w, In w rejecting -> label d w = Some false)).
Proof.
  intros Hcover.
  assert (Main : forall fuel allow_unminimized d,
     In d (items (fst (find_dfas solver_fact card SymMode symmetry_clauses sym_mode
       extra_clauses bounds order_by_stutter
       fuel accepting rejecting given allow_unminimized))) ->
     (forall w, In w accepting -> label d w = Some true)
     /\ (forall w, In w rejecting -> label d w = Some false)).
  { intros [|fuel] allow d; [intros []|].
    unfold find_dfas. cbn [fst]. rewrite items_map_event.
    intros H. apply in_map_iff in H. destruct H as (cm & <- & H).
    destruct (contradictory accepting rejecting) eqn:C.
    { cbn [find_models] in H. rewrite C in H. destruct H. }
    assert (D : accepting ++ rejecting = [] \/ accepting ++ rejecting <> [])
      by (destruct (accepting ++ rejecting); [now left | now right]).
    destruct D as [E|Hne].
    { apply app_eq_nil in E. destruct E as [-> ->]. split; intros w []. }
    rewrite find_models_main in H by assumption.
    apply loop_sound in H. destruct H as (k & Ek & Hsat). rewrite Ek in *.
    apply decoded_consistent; auto. now apply alphabet_covers. }
  split; [exact Main|].
  intros fuel d H. apply (Main fuel false d). unfold find_dfa, py_next in H.
  destruct (items (fst (find_dfas solver_fact card SymMode symmetry_clauses sym_mode
       extra_clauses bounds order_by_stutter
       fuel accepting rejecting given false))) as [|d0 r].
  - destruct (snd _) as [[|ex]|]; discriminate.
  - injection H as ->. now left.
Qed.

End Soundness.

(** ** The worked instance, end to end *)

Lemma reference_oracle_sound : oracle_sound Reference.solver.
Proof. intros q m H. now apply all_models_sound in H. Qed.

Lemma checking_oracle_sound (candidates : list Model) :
  oracle_sound (Checking.solver candidates).
Proof. intros q m H. simpl in H. apply filter_In in H. tauto. Qed.

(** The two scenarios of [test_identify], with an oracle that checks the
    encoding of the three-state automaton. *)
Lemma find_dfas_sound_witness :
  (exists d,
      find_dfa (Checking.solver [Scenario.model (SymStr "a") (SymStr "b")])
               Reference.card unit Example.no_symmetry tt Example.no_extra
               (None, None) false 4
               (Scenario.accepting (SymStr "a") (SymStr "b"))
               (Scenario.rejecting (SymStr "a") (SymStr "b")) None
      = Some (Ok (Some d))
      /\ (forall w, In w (Scenario.accepting (SymStr "a") (SymStr "b")) ->
                    label d w = Some true)
      /\ (forall w, In w (Scenario.rejecting (SymStr "a") (SymStr "b")) ->
                    label d w = Some false))
  /\ (exists d,
        find_dfa (Checking.solver [Scenario.model (SymInt 0) (SymStr "z")])
                 Reference.card unit Example.no_symmetry tt Example.no_extra
                 (None, None) false 4
                 (Scenario.accepting (SymInt 0) (SymStr "z"))
                 (Scenario.rejecting (SymInt 0) (SymStr "z")) None
        = Some (Ok (Some d))
        /\ (forall w, In w (Scenario.accepting (SymInt 0) (SymStr "z")) ->
                      label d w = Some true)
        /\ (forall w, In w (Scenario.rejecting (SymInt 0) (SymStr "z")) ->
                      label d w = Some false)).
Proof.
  assert (Run : forall a b,
    (exists d,
        find_dfa (Checking.solver [Scenario.model a b])
                 Reference.card unit Example.no_symmetry tt Example.no_extra
                 (None, None) false 4
                 (Scenario.accepting a b) (Scenario.rejecting a b) None
        = Some (Ok (Some d))) ->
    exists d,
      find_dfa (Checking.solver [Scenario.model a b])
               Reference.card unit Example.no_symmetry tt Example.no_extra
               (None, None) false 4
               (Scenario.accepting a b) (Scenario.rejecting a b) None
      = Some (Ok (Some d))
      /\ (forall w, In w (Scenario.accepting a b) -> label d w = Some true)
      /\ (forall w, In w (Scenario.rejecting a b) -> label d w = Some false)).
  { intros a b (d & E). exists d. split; [exact E|].
    apply (proj2 (find_dfas_sound
                    (Checking.solver [Scenario.model a b])
                    Reference.card unit Example.no_symmetry
                    tt Example.no_extra (None, None) false
                    (checking_oracle_sound _)
                    (Scenario.accepting a b) (Scenario.rejecting a b) None
                    ltac:(discriminate)) 4%nat d E). }
  split; apply Run.
  - destruct (find_dfa _ _ _ _ _ _ _ _ _ _ _ _) as [[[d|]|]|] eqn:E;
      try (vm_compute in E; discriminate). now exists d.
  - destruct (find_dfa _ _ _ _ _ _ _ _ _ _ _ _) as [[[d|]|]|] eqn:E;
      try (vm_compute in E; discriminate). now exists d.
Defined.


Lemma empty_word_duality_witness :
  items (fst (find_models Reference.solver Reference.card unit
                Example.no_symmetry tt Example.no_extra (None, Some 2%nat)
                false 5 [] [] (Some [Example.sym_a]) true))
  = interleave
      (items (fst (find_models Reference.solver Reference.card unit
                     Example.no_symmetry tt Example.no_extra (None, Some 2%nat)
                     false 4 [[]] [] (Some [Example.sym_a]) true)))
      (items (fst (find_models Reference.solver Reference.card unit
                     Example.no_symmetry tt Example.no_extra (None, Some 2%nat)
                     false 4 [] [[]] (Some [Example.sym_a]) true))).
Proof.
  refine (proj1 (proj1 (proj2
            (empty_word_duality
               Reference.solver Reference.card unit Example.no_symmetry tt
               Example.no_extra (None, Some 2%nat) false
               4 (Some [Example.sym_a]) true _)) _ _)).
  - reflexivity.
  - vm_compute. reflexivity.
  - apply Nat.leb_le. vm_compute. reflexivity.
Defined.

(** ** The instance with an unreachable state *)

Lemma unreachable_lits_in_range :
  Forall (fun x => 1 <= x <= Z.of_nat (Reference.num_vars Unreachable.clauses))
         (non_stutter_lits Unreachable.codec).
Proof.
  apply Forall_forall. intros x Hx. vm_compute in Hx.
  destruct Hx as [<-|[<-|[]]]; vm_compute; split; discriminate.
Qed.

(** With the contracts met, the first model emitted for this instance has
    one non-stutter transition, although a model of the clause set has
    none: the search starts at [n_colors - 1 = 1].  The driver reaches
    this run when the lower size bound is 2. *)
Lemma stutter_first_not_minimum :
  Stutter.atmost_contract Reference.solver Reference.card
                          Unreachable.codec Unreachable.clauses
  /\ Stutter.equals_exact Reference.solver Reference.card
                          Unreachable.codec Unreachable.clauses
  /\ Stutter.equals_complete Reference.solver Reference.card
                             Unreachable.codec Unreachable.clauses
  /\ get_model Reference.solver Unreachable.clauses = Unreachable.model
  /\ exists w rest,
      items (fst (Stutter.order_models_by_stutter
                    Reference.solver Reference.card Unreachable.codec
                    Unreachable.clauses 1 Unreachable.model))
      = w :: rest
      /\ hd_error (items (fst (find_models
                                Reference.solver Reference.card unit
                                Example.no_symmetry tt Example.no_extra
                                (Some 2%nat, None) true 2
                                Unreachable.accepting Unreachable.rejecting
                                None false)))
         = Some (Unreachable.codec, w)
      /\ Stutter.non_stutter_count Unreachable.codec w = Ok 1
      /\ Stutter.attains Unreachable.codec Unreachable.clauses 0
      /\ ~ (exists c,
              Stutter.non_stutter_count Unreachable.codec w = Ok c
              /\ Stutter.minimum Unreachable.codec Unreachable.clauses c).
Proof.
  split; [apply reference_atmost, unreachable_lits_in_range|].
  split; [apply reference_equals_exact, unreachable_lits_in_range|].
  split; [apply reference_equals_complete, unreachable_lits_in_range|].
  split; [vm_compute; reflexivity|].
  assert (A0 : Stutter.attains Unreachable.codec Unreachable.clauses 0).
  { exists Unreachable.loops. split; vm_compute; reflexivity. }
  eexists. eexists. split; [vm_compute; reflexivity|].
  split; [vm_compute; reflexivity|].
  split; [vm_compute; reflexivity|].
  split; [exact A0|].
  intros (c & Hc & _ & Hleast). vm_compute in Hc. injection Hc as <-.
  specialize (Hleast 0 A0). lia.
Qed.


(** An oracle that answers for the clause set, first with the model whose
    two non-stutter transitions are both taken and then with the model
    that only loops: the search starts from [lo = 1] and [hi = 2], the
    witness of its one pass has no non-stutter transition, and the loop
    exits with [lo = 1] and [hi = 0]: the bounds have crossed, they have
    not met. *)
Lemma search_bounds_cross :
  Stutter.atmost_contract
    (Checking.solver [Example.model; Unreachable.loops]) Reference.card
    Unreachable.codec Unreachable.clauses
  /\ Stutter.atmost_bounded
       (Checking.solver [Example.model; Unreachable.loops]) Reference.card
       Unreachable.codec Unreachable.clauses
  /\ get_model (Checking.solver [Example.model; Unreachable.loops])
               Unreachable.clauses = Example.model
  /\ satisfies Example.model Unreachable.clauses = true
  /\ Stutter.non_stutter_count Unreachable.codec Example.model = Ok 2
  /\ Z.of_nat (n_colors Unreachable.codec) - 1 = 1
  /\ py_max_map_max Unreachable.clauses = Ok 10
  /\ max_id Unreachable.codec = 10
  /\ 1 <= 2
  /\ Stutter.search
       (Checking.solver [Example.model; Unreachable.loops]) Reference.card
       Unreachable.codec Unreachable.clauses (Z.to_nat (2 - 1)) 10 1 2
     = Some ([Stutter.formula_query Unreachable.codec Unreachable.clauses
                (atmost Reference.card) 10 1],
             Ok (1, 0))
  /\ ~ (forall fuel qs lo' hi',
          Stutter.search
            (Checking.solver [Example.model; Unreachable.loops])
            Reference.card Unreachable.codec Unreachable.clauses
            fuel 10 1 2
          = Some (qs, Ok (lo', hi')) ->
          lo' = hi').
Proof.
  assert (P : Forall (fun x => 1 <= x) (non_stutter_lits Unreachable.codec)).
  { eapply Forall_impl; [|exact unreachable_lits_in_range].
    intros x Hx. exact (proj1 Hx). }
  assert (D : forall w, In w [Example.model; Unreachable.loops] ->
                Forall (fun x => 1 <= x <= Z.of_nat (length w))
                       (non_stutter_lits Unreachable.codec)).
  { intros w [<-|[<-|[]]]; apply Forall_forall; intros x Hx;
      vm_compute in Hx; destruct Hx as [<-|[<-|[]]];
      vm_compute; split; discriminate. }
  assert (L : exists w, In w [Example.model; Unreachable.loops]
                /\ satisfies w Unreachable.clauses = true
                /\ Reference.trues w (non_stutter_lits Unreachable.codec)
                   = 0%nat).
  { exists Unreachable.loops. split; [right; now left|].
    split; vm_compute; reflexivity. }
  split; [exact (checking_atmost _ _ _ P L)|].
  split; [exact (checking_atmost_bounded _ _ _ P D)|].
  assert (S : Stutter.search
                (Checking.solver [Example.model; Unreachable.loops])
                Reference.card Unreachable.codec Unreachable.clauses
                (Z.to_nat (2 - 1)) 10 1 2
              = Some ([Stutter.formula_query Unreachable.codec
                         Unreachable.clauses (atmost Reference.card) 10 1],
                      Ok (1, 0)))
    by (vm_compute; reflexivity).
  repeat (split; [vm_compute; reflexivity|]).
  split; [lia|]. split; [exact S|].
  intros H. specialize (H _ _ _ _ S). discriminate.
Qed.

(** * Further properties *)

(** ** The cost and the reach of the binary search *)

Section SearchCost.

Variable solver_fact : SolverFact.
Variable card : CardEnc.
Variable codec : Codec.
Variable clauses : Clauses.

(** A pass leaves at most half of the distance between [lo] and [hi]. *)
Lemma search_step_halves (top_id lo hi lo' hi' : Z) :
  lo < hi ->
  Stutter.search_step solver_fact card codec clauses top_id lo hi
    = Ok (lo', hi') ->
  hi' - lo' <= (hi - lo) / 2 /\ lo <= lo' /\ hi' <= hi.
Proof.
  intros Hlt. unfold Stutter.search_step.
  pose proof (Z.div_mod (lo + hi) 2 ltac:(lia)) as D1.
  pose proof (Z.mod_pos_bound (lo + hi) 2 ltac:(lia)) as M1.
  pose proof (Z.div_mod (hi - lo) 2 ltac:(lia)) as D2.
  pose proof (Z.mod_pos_bound (hi - lo) 2 ltac:(lia)) as M2.
  destruct (Stutter.first_model _ _ _ _ _ _) as [w|].
  - destruct (Stutter.non_stutter_count codec w) as [c|]; simpl; [|discriminate].
    destruct (c <=? (lo + hi) / 2) eqn:E; [|discriminate].
    apply Z.leb_le in E. intros [= <- <-]. lia.
  - intros [= <- <-]. lia.
Qed.

Lemma search_within_power (top_id : Z) (n : nat) :
  forall lo hi,
    hi - lo < 2 ^ Z.of_nat n ->
    exists qs r,
      Stutter.search solver_fact card codec clauses n top_id lo hi
        = Some (qs, r)
      /\ (length qs <= n)%nat.
Proof.
  induction n as [|n IH]; intros lo hi Hd.
  - simpl in *. destruct (lo <? hi) eqn:E.
    + apply Z.ltb_lt in E. lia.
    + exists [], (Ok (lo, hi)). auto.
  - cbn [Stutter.search]. destruct (lo <? hi) eqn:E.
    + apply Z.ltb_lt in E.
      destruct (Stutter.search_step _ _ _ _ top_id lo hi) as [[lo1 hi1]|ex] eqn:Es.
      * destruct (search_step_halves _ _ _ _ _ E Es) as (Hh & _ & _).
        destruct (IH lo1 hi1) as (qs & r & -> & Hl).
        { rewrite Nat2Z.inj_succ, Z.pow_succ_r in Hd by lia.
          pose proof (Z.div_mod (hi - lo) 2 ltac:(lia)).
          pose proof (Z.mod_pos_bound (hi - lo) 2 ltac:(lia)). lia. }
        eexists. eexists. split; [reflexivity|]. simpl. lia.
      * eexists. eexists. split; [reflexivity|]. simpl. lia.
    + exists [], (Ok (lo, hi)). split; [reflexivity|]. simpl. lia.
Qed.

(** X1. The binary search is logarithmic: from [lo < hi] it ends, by a
    normal exit or an exception, after at most [log2 (hi - lo) + 1]
    at-most sessions, whatever the oracle answers. *)
Theorem search_logarithmic (top_id lo hi : Z) :
  lo < hi ->
  exists qs r,
    Stutter.search solver_fact card codec clauses
                   (S (Z.to_nat (Z.log2 (hi - lo)))) top_id lo hi
      = Some (qs, r)
    /\ Z.of_nat (length qs) <= Z.log2 (hi - lo) + 1.
Proof.
  intros H.
  destruct (search_within_power top_id (S (Z.to_nat (Z.log2 (hi - lo)))) lo hi)
    as (qs & r & Hs & Hl).
  - rewrite Nat2Z.inj_succ, Z2Nat.id by apply Z.log2_nonneg.
    apply Z.log2_spec. lia.
  - exists qs, r. split; [exact Hs|].
    pose proof (Z.log2_nonneg (hi - lo)). lia.
Qed.

(** X2. Every bound the binary search probes lies between the initial
    [lo] (included) and the initial [hi] (excluded), in a session on the
    clause set extended by the at-most constraint for that bound. *)
Theorem search_probes_in_range (top_id : Z) (fuel : nat) :
  forall lo hi qs r,
    Stutter.search solver_fact card codec clauses fuel top_id lo hi
      = Some (qs, r) ->
    Forall (fun q => exists mid,
                lo <= mid < hi
                /\ q = Stutter.formula_query codec clauses (atmost card)
                                             top_id mid) qs.
Proof.
  induction fuel as [|fuel IH]; intros lo hi qs r; cbn [Stutter.search].
  - destruct (lo <? hi); [discriminate|]. intros [= <- <-]. constructor.
  - destruct (lo <? hi) eqn:E; [|intros [= <- <-]; constructor].
    apply Z.ltb_lt in E. pose proof (midpoint_between lo hi E) as Hmid.
    destruct (Stutter.search_step _ _ _ _ top_id lo hi) as [[lo1 hi1]|ex] eqn:Es.
    + destruct (search_step_halves _ _ _ _ _ E Es) as (_ & Hlo & Hhi).
      destruct (Stutter.search _ _ _ _ fuel top_id lo1 hi1) as [[qs1 r1]|] eqn:Er;
        [|discriminate].
      intros [= <- <-]. constructor; [eauto|].
      eapply Forall_impl; [|eapply IH; eauto].
      intros q (mid & Hm & ->). exists mid. split; [lia|reflexivity].
    + intros [= <- <-]. constructor; [eauto|constructor].
Qed.

End SearchCost.

(** ** Counting, sessions and exceptions of the optimizer *)

Section OptimizerFacts.

Variable solver_fact : SolverFact.
Variable card : CardEnc.
Variable codec : Codec.
Variable clauses : Clauses.

Lemma py_index_defined (l : list Z) (i : Z) :
  (exists v, py_index l i = Ok v)
  <-> - Z.of_nat (length l) <= i < Z.of_nat (length l).
Proof.
  unfold py_index.
  destruct ((0 <=? i) && (i <? Z.of_nat (length l))) eqn:E1.
  - apply andb_true_iff in E1. destruct E1 as [A B].
    apply Z.leb_le in A. apply Z.ltb_lt in B. split; [lia|eauto].
  - destruct ((- Z.of_nat (length l) <=? i) && (i <? 0)) eqn:E2.
    + apply andb_true_iff in E2. destruct E2 as [A B].
      apply Z.leb_le in A. apply Z.ltb_lt in B. split; [lia|eauto].
    + split; [intros (v & H); discriminate|]. intros H. exfalso.
      apply andb_false_iff in E1, E2.
      rewrite !Z.leb_gt, !Z.ltb_ge in *. lia.
Qed.

Lemma py_index_raises (l : list Z) (i : Z) (e : exn) :
  py_index l i = Raise e -> e = IndexError.
Proof.
  unfold py_index. destruct (_ && _); [discriminate|].
  destruct (_ && _); [discriminate|]. now intros [= <-].
Qed.

Lemma count_true_raises (ls : list Z) (m : Model) (e : exn) :
  Stutter.count_true ls m = Raise e -> e = IndexError.
Proof.
  induction ls as [|x ls IH]; cbn [Stutter.count_true]; [discriminate|].
  destruct (py_index m (x - 1)) as [v|e0] eqn:E; cbn [bind].
  - destruct (Stutter.count_true ls m) as [c|e1]; cbn [bind]; [discriminate|].
    intros [= <-]. now apply IH.
  - intros [= <-]. eapply py_index_raises; eauto.
Qed.

Lemma count_true_defined (ls : list Z) (m : Model) :
  (exists c, Stutter.count_true ls m = Ok c)
  <-> Forall (fun x => - Z.of_nat (length m) <= x - 1 < Z.of_nat (length m)) ls.
Proof.
  induction ls as [|x ls IH]; cbn [Stutter.count_true].
  - split; [constructor | eauto].
  - split.
    + intros (c & H).
      destruct (py_index m (x - 1)) as [v|] eqn:E; cbn [bind] in H;
        [|discriminate].
      destruct (Stutter.count_true ls m) as [c0|] eqn:E0; cbn [bind] in H;
        [|discriminate].
      constructor; [apply py_index_defined; eauto | apply IH; eauto].
    + intros H. inversion H as [|? ? Hx Hls]; subst.
      apply py_index_defined in Hx. destruct Hx as (v & ->).
      apply IH in Hls. destruct Hls as (c & ->). cbn [bind]. eauto.
Qed.

(** X7. The non-stutter count of a model is defined exactly when every
    non-stutter literal [x] indexes inside the model as [model[x - 1]],
    negative indices included; it then lies between 0 and the number of
    literals, and otherwise the exception is [IndexError]. *)
Theorem non_stutter_count_defined (model : Model) :
  ((exists c, Stutter.non_stutter_count codec model = Ok c)
   <-> Forall (fun x => - Z.of_nat (length model) <= x - 1
                        < Z.of_nat (length model))
              (non_stutter_lits codec))
  /\ (forall c, Stutter.non_stutter_count codec model = Ok c ->
                0 <= c <= Z.of_nat (length (non_stutter_lits codec)))
  /\ (forall e, Stutter.non_stutter_count codec model = Raise e ->
                e = IndexError).
Proof.
  unfold Stutter.non_stutter_count, Stutter.lits. split; [|split].
  - apply count_true_defined.
  - intros c. apply count_true_bounds.
  - intros e. apply count_true_raises.
Qed.

(** *** Which exceptions come from where *)

Lemma py_max_map_max_raises (cs : Clauses) :
  (exists e, py_max_map_max cs = Raise e) <-> cs = [] \/ In [] cs.
Proof.
  induction cs as [|c cs IH]; cbn [py_max_map_max].
  - split; [auto | eauto].
  - destruct c as [|x c]; cbn [py_max bind].
    + split; [intros _; right; now left | eauto].
    + destruct cs as [|d cs].
      * split; [intros (e & H); discriminate|].
        intros [H|[H|[]]]; discriminate.
      * destruct (py_max_map_max (d :: cs)) as [m1|e1] eqn:E; cbn [bind].
        -- split; [intros (e & H); discriminate|].
           intros [H|[H|H]]; try discriminate.
           destruct IH as [_ IH].
           destruct (IH (or_intror H)) as (e & He). discriminate.
        -- split; [|eauto]. intros _. right. right.
           destruct IH as [IH _].
           destruct (IH (ex_intro _ e1 eq_refl)) as [H|H];
             [discriminate | exact H].
Qed.

Lemma py_max_map_max_value_error (cs : Clauses) (e : exn) :
  py_max_map_max cs = Raise e -> e = ValueError.
Proof.
  induction cs as [|c cs IH]; cbn [py_max_map_max]; [now intros [= <-]|].
  destruct c as [|x c]; cbn [py_max bind]; [now intros [= <-]|].
  destruct cs as [|d cs]; [discriminate|].
  destruct (py_max_map_max (d :: cs)) as [m'|e']; cbn [bind]; [discriminate|].
  intros [= <-]. now apply IH.
Qed.

Lemma search_raises (top_id : Z) (fuel : nat) :
  forall lo hi qs e,
    Stutter.search solver_fact card codec clauses fuel top_id lo hi
      = Some (qs, Raise e) ->
    e = AssertionError \/ e = IndexError.
Proof.
  induction fuel as [|fuel IH]; intros lo hi qs e; cbn [Stutter.search].
  - destruct (lo <? hi); discriminate.
  - destruct (lo <? hi); [|discriminate].
    destruct (Stutter.search_step _ _ _ _ top_id lo hi) as [[lo1 hi1]|ex] eqn:Es.
    + destruct (Stutter.search _ _ _ _ fuel top_id lo1 hi1) as [[qs1 r1]|] eqn:Er;
        [|discriminate].
      intros [= <- ->]. eapply IH; eauto.
    + intros [= <- <-]. revert Es. unfold Stutter.search_step.
      destruct (Stutter.first_model _ _ _ _ _ _) as [w|]; [|discriminate].
      destruct (Stutter.non_stutter_count codec w) as [c|e0] eqn:Ec; cbn [bind].
      * destruct (c <=? _); [discriminate|]. intros [= <-]. now left.
      * intros [= <-]. right. eapply count_true_raises. exact Ec.
Qed.

Lemma sweep_raises (top_id : Z) :
  forall bs cb t e,
    Stutter.sweep solver_fact card codec clauses top_id bs cb = (t, Raised e) ->
    e = IndexError.
Proof.
  induction bs as [|b bs IH]; intros cb t e; cbn [Stutter.sweep];
    [discriminate|].
  destruct (b >? cb).
  - destruct (Stutter.first_model _ _ _ _ _ _) as [w|]; [|discriminate].
    destruct (Stutter.non_stutter_count codec w) as [c|e0] eqn:Ec.
    + destruct (Stutter.sweep _ _ _ _ top_id bs c) as [t' e'] eqn:Es.
      intros [= <- ->]. eapply IH; eauto.
    + intros [= <- <-]. eapply count_true_raises. exact Ec.
  - destruct (Stutter.sweep _ _ _ _ top_id bs cb) as [t' e'] eqn:Es.
    intros [= <- ->]. eapply IH; eauto.
Qed.

(** X6. [order_models_by_stutter] raises [ValueError] exactly when the
    clause list is empty or holds an empty clause; it does so before any
    session is opened and before any model is emitted. *)
Theorem empty_clauses_value_error (fuel : nat) (model : Model) :
  (clauses = [] \/ In [] clauses ->
   Stutter.order_models_by_stutter solver_fact card codec clauses fuel model
   = ([], Some (Raised ValueError)))
  /\ (forall t,
        Stutter.order_models_by_stutter solver_fact card codec clauses
                                        fuel model
        = (t, Some (Raised ValueError)) ->
        t = [] /\ (clauses = [] \/ In [] clauses)).
Proof.
  unfold Stutter.order_models_by_stutter. split.
  - intros H. apply py_max_map_max_raises in H. destruct H as (e & H).
    rewrite H. now rewrite (py_max_map_max_value_error _ _ H).
  - intros t.
    destruct (py_max_map_max clauses) as [top0|e0] eqn:E.
    + destruct (Stutter.non_stutter_count codec model) as [hi|e1] eqn:Ec.
      * destruct (Stutter.search _ _ _ _ _ _ _ hi) as [[qs [[lo1 hi1]|ex]]|] eqn:Es;
          [| |discriminate].
        -- destruct (Stutter.sweep _ _ _ _ _ _ hi) as [t' [|e']] eqn:Ew;
             [discriminate|].
           intros [= _ He]. apply sweep_raises in Ew. congruence.
        -- intros [= _ He]. apply search_raises in Es.
           destruct Es; congruence.
      * intros [= _ He]. apply count_true_raises in Ec. congruence.
    + intros [= <- _]. split; [reflexivity|].
      apply py_max_map_max_raises. eauto.
Qed.

End OptimizerFacts.

(** ** The sessions and the reach of the sweep *)

Section SweepFacts.

Variable solver_fact : SolverFact.
Variable card : CardEnc.
Variable codec : Codec.
Variable clauses : Clauses.

Lemma queries_map_Yield {A} (l : list A) : queries (map Yield l) = [].
Proof. induction l; simpl; auto. Qed.

Lemma queries_map_Query {A} (qs : list Clauses) :
  queries (map (@Query A) qs) = qs.
Proof. induction qs; simpl; congruence. Qed.

Lemma queries_find_card_models mk top_id b :
  queries (Stutter.find_models solver_fact codec clauses mk top_id b)
  = [Stutter.formula_query codec clauses mk top_id b].
Proof.
  unfold Stutter.find_models. cbn [queries].
  destruct (solve solver_fact _); [now rewrite queries_map_Yield | reflexivity].
Qed.

(** A session of the optimizer: the clause set extended by an at-most or
    an exactly constraint over the non-stutter literals. *)
Local Abbreviation cardinality_session top_id q :=
  (exists b,
      q = clauses ++ atmost card (non_stutter_lits codec) b top_id
      \/ q = clauses ++ equals card (non_stutter_lits codec) b top_id).

Lemma search_sessions (top_id : Z) (fuel : nat) :
  forall lo hi qs r,
    Stutter.search solver_fact card codec clauses fuel top_id lo hi
      = Some (qs, r) ->
    Forall (fun q => cardinality_session top_id q) qs.
Proof.
  induction fuel as [|fuel IH]; intros lo hi qs r; cbn [Stutter.search].
  - destruct (lo <? hi); [discriminate|]. intros [= <- <-]. constructor.
  - destruct (lo <? hi); [|intros [= <- <-]; constructor].
    destruct (Stutter.search_step _ _ _ _ top_id lo hi) as [[lo1 hi1]|ex].
    + destruct (Stutter.search _ _ _ _ fuel top_id lo1 hi1) as [[qs1 r1]|] eqn:Er;
        [|discriminate].
      intros [= <- <-]. constructor; [eexists; left; reflexivity|].
      eapply IH; eauto.
    + intros [= <- <-]. constructor; [eexists; left; reflexivity|constructor].
Qed.

Lemma sweep_sessions (top_id : Z) :
  forall bs cb,
    Forall (fun q => cardinality_session top_id q)
           (queries (fst (Stutter.sweep solver_fact card codec clauses
                                        top_id bs cb))).
Proof.
  induction bs as [|b bs IH]; intros cb; cbn [Stutter.sweep]; [constructor|].
  assert (Step : forall cb',
             Forall (fun q => cardinality_session top_id q)
                    (queries (Stutter.find_models solver_fact codec clauses
                                (equals card) top_id b
                              ++ fst (Stutter.sweep solver_fact card codec
                                        clauses top_id bs cb')))).
  { intros cb'. rewrite queries_app, queries_find_card_models.
    constructor; [eexists; right; reflexivity | apply IH]. }
  destruct (b >? cb).
  - destruct (Stutter.first_model _ _ _ _ _ _) as [w|].
    + destruct (Stutter.non_stutter_count codec w) as [c|].
      * specialize (Step c).
        destruct (Stutter.sweep _ _ _ _ top_id bs c) as [t e].
        cbn [fst queries] in *. constructor; [eexists; left; reflexivity|].
        exact Step.
      * cbn [fst queries]. constructor; [eexists; left; reflexivity|constructor].
    + cbn [fst queries]. constructor; [eexists; left; reflexivity|constructor].
  - specialize (Step cb).
    destruct (Stutter.sweep _ _ _ _ top_id bs cb) as [t e]. exact Step.
Qed.

(** X3. Every session [order_models_by_stutter] opens holds the original
    clause set followed by one at-most or exactly constraint over the
    non-stutter literals, all built with one [top_id] that is at least
    the codec's [max_id]: the clause set itself is never changed. *)
Theorem sessions_extend_clauses (fuel : nat) (model : Model) :
  exists top_id,
    max_id codec <= top_id
    /\ Forall (fun q =>
                 exists b,
                   q = clauses ++ atmost card (non_stutter_lits codec) b top_id
                   \/ q = clauses
                          ++ equals card (non_stutter_lits codec) b top_id)
              (queries (fst (Stutter.order_models_by_stutter
                               solver_fact card codec clauses fuel model))).
Proof.
  unfold Stutter.order_models_by_stutter.
  destruct (py_max_map_max clauses) as [top0|];
    [|exists (max_id codec); split; [lia|constructor]].
  exists (Z.max (max_id codec) top0). split; [lia|].
  destruct (Stutter.non_stutter_count codec model) as [hi|]; [|constructor].
  destruct (Stutter.search _ _ _ _ _ _ _ hi) as [[qs [[lo1 hi1]|ex]]|] eqn:Es;
    cbn [fst]; [| |constructor].
  - pose proof (sweep_sessions (Z.max (max_id codec) top0)
                  (py_range lo1 (Z.of_nat (length (Stutter.lits codec)) + 1))
                  hi) as Hw.
    destruct (Stutter.sweep _ _ _ _ _ _ hi) as [t e]. cbn [fst] in *.
    rewrite queries_app, queries_map_Query. apply Forall_app. split; auto.
    eapply search_sessions; eauto.
  - rewrite queries_map_Query. eapply search_sessions; eauto.
Qed.

(** X4. With an oracle and an encoder that meet the at-most contract, a
    satisfying first model and a non-empty clause set without empty
    clauses, [order_models_by_stutter] never takes its early exit: it ends
    normally, and it emits every model of every exactly session whose
    bound is a count that some model attains at or above
    [n_colors - 1]. *)
Theorem sweep_never_stops_early
    (fuel : nat) (model : Model) (top0 hi : Z) :
  Stutter.atmost_contract solver_fact card codec clauses ->
  Stutter.atmost_bounded solver_fact card codec clauses ->
  satisfies model clauses = true ->
  py_max_map_max clauses = Ok top0 ->
  Stutter.non_stutter_count codec model = Ok hi ->
  hi - (Z.of_nat (n_colors codec) - 1) <= Z.of_nat fuel ->
  snd (Stutter.order_models_by_stutter solver_fact card codec clauses
                                       fuel model) = Some Stop
  /\ forall c w,
      Stutter.attains codec clauses c ->
      Z.of_nat (n_colors codec) - 1 <= c ->
      In w (items (Stutter.find_models solver_fact codec clauses (equals card)
                     (Z.max (max_id codec) top0) c)) ->
      In w (items (fst (Stutter.order_models_by_stutter
                          solver_fact card codec clauses fuel model))).
Proof.
  intros Hat Hbd Hm Htop Hhi Hfuel.
  unfold Stutter.order_models_by_stutter. rewrite Htop, Hhi.
  set (top_id := Z.max (max_id codec) top0).
  destruct (search_enough_fuel solver_fact card codec clauses top_id fuel
              (Z.of_nat (n_colors codec) - 1) hi Hfuel)
    as (qs & r & Hs & _ & _).
  destruct (search_no_raise solver_fact card codec clauses top_id Hbd
              _ _ _ _ _ Hs) as (lo1 & hi1 & ->).
  rewrite Hs.
  destruct (search_lower_bound solver_fact card codec clauses top_id
              (Z.of_nat (n_colors codec) - 1) Hat
              _ _ _ _ _ _ (Z.le_refl _) (fun c _ H => H) Hs) as [_ Hlow].
  assert (Hatt : Stutter.attains codec clauses hi) by (exists model; auto).
  destruct (sweep_visits_all solver_fact card codec clauses top_id Hat Hbd
              (py_range lo1 (Z.of_nat (length (Stutter.lits codec)) + 1))
              hi Hatt) as [I1 I2].
  destruct (Stutter.sweep _ _ _ _ _ _ hi) as [t e]. cbn [fst snd] in *.
  split; [now rewrite I2|].
  intros c w Hc Hge Hw. rewrite items_app, items_map_Query, I1. cbn [app].
  apply in_flat_map. exists c. split; [|exact Hw].
  apply py_range_In. split; [now apply Hlow|].
  destruct Hc as (m' & _ & Hm'). unfold Stutter.non_stutter_count in Hm'.
  pose proof (count_true_bounds _ _ _ Hm'). lia.
Qed.

(** X5. The assertion guards the at-most sessions: when the witness of
    the first session has more non-stutter transitions than the bound it
    was asked for, [AssertionError] is raised after that one session; and
    whenever [AssertionError] is raised, no model has been emitted. *)
Theorem witness_over_bound_asserts
    (fuel : nat) (model : Model) (top0 hi : Z) (w : Model) (c : Z) :
  py_max_map_max clauses = Ok top0 ->
  Stutter.non_stutter_count codec model = Ok hi ->
  Z.of_nat (n_colors codec) - 1 < hi ->
  Stutter.first_model solver_fact codec clauses (atmost card)
    (Z.max (max_id codec) top0) ((Z.of_nat (n_colors codec) - 1 + hi) / 2)
  = Some w ->
  Stutter.non_stutter_count codec w = Ok c ->
  (Z.of_nat (n_colors codec) - 1 + hi) / 2 < c ->
  Stutter.order_models_by_stutter solver_fact card codec clauses
                                  (S fuel) model
  = ([Query (Stutter.formula_query codec clauses (atmost card)
               (Z.max (max_id codec) top0)
               ((Z.of_nat (n_colors codec) - 1 + hi) / 2))],
     Some (Raised AssertionError))
  /\ forall fuel' model' t,
      Stutter.order_models_by_stutter solver_fact card codec clauses
                                      fuel' model'
      = (t, Some (Raised AssertionError)) ->
      items t = [].
Proof.
  intros Htop Hhi Hlt Hw Hc Hover. split.
  - unfold Stutter.order_models_by_stutter. rewrite Htop, Hhi.
    cbn [Stutter.search]. apply Z.ltb_lt in Hlt. rewrite Hlt.
    unfold Stutter.search_step. rewrite Hw, Hc. cbn [bind].
    apply Z.leb_gt in Hover. rewrite Hover. reflexivity.
  - intros fuel' model' t. unfold Stutter.order_models_by_stutter.
    destruct (py_max_map_max clauses) as [t0|e0]; [|now intros [= <- _]].
    destruct (Stutter.non_stutter_count codec model') as [h|e1];
      [|now intros [= <- _]].
    destruct (Stutter.search _ _ _ _ _ _ _ h) as [[qs [[lo1 hi1]|ex]]|];
      [| |discriminate].
    + destruct (Stutter.sweep _ _ _ _ _ _ h) as [t' [|e']] eqn:Ew;
        [discriminate|].
      intros [= _ He]. apply sweep_raises in Ew. congruence.
    + intros [= <- _]. apply items_map_Query.
Qed.

End SweepFacts.

(** ** The sessions of the driver *)

Lemma queries_map_Yield_with {A B} (f : B -> A) (l : list B) :
  queries (map (fun x => Yield (f x)) l) = [].
Proof. induction l; simpl; auto. Qed.

Section LoopTrace.

Variable solver_fact : SolverFact.
Variable card : CardEnc.
Variable order_by_stutter : bool.
Variable encodings : nat -> option (Codec * Clauses).

(** Passing over unsatisfiable positions opens one session each. *)
Lemma loop_skips_trace (allow : bool) (j : nat) :
  forall fuel i,
    (forall i', (i <= i' < i + j)%nat ->
       encodings i' <> None
       /\ satisfiable_at solver_fact encodings i' = false) ->
    loop solver_fact card order_by_stutter (j + fuel) encodings allow i
    = (map Query (map (clauses_at encodings) (seq i j))
         ++ fst (loop solver_fact card order_by_stutter fuel encodings allow
                      (i + j)),
       snd (loop solver_fact card order_by_stutter fuel encodings allow
                 (i + j))).
Proof.
  induction j as [|j IH]; intros fuel i H.
  - rewrite Nat.add_0_r. simpl. now destruct (loop _ _ _ _ _ _ _).
  - destruct (H i ltac:(lia)) as [Hd Hu].
    unfold satisfiable_at in Hu. change (S j + fuel)%nat with (S (j + fuel)).
    cbn [loop seq map]. unfold clauses_at at 1.
    destruct (encodings i) as [[codec clauses]|]; [|congruence].
    rewrite (loop_body_unsat _ _ _ _ _ _ _ Hu).
    rewrite (IH fuel (S i)) by (intros; apply H; lia).
    replace (i + S j)%nat with (S i + j)%nat by lia. reflexivity.
Qed.

Lemma loop_exhausted (allow : bool) (fuel i : nat) :
  encodings i = None ->
  loop solver_fact card order_by_stutter (S fuel) encodings allow i
  = ([], Some Stop).
Proof. intros H. cbn [loop]. now rewrite H. Qed.

End LoopTrace.

Section DriverTrace.

Variable solver_fact : SolverFact.
Variable card : CardEnc.
Variable SymMode : Type.
Variable symmetry_clauses : SymMode -> APTA -> Codec -> Clauses.
Variable sym_mode : SymMode.
Variable extra_clauses : Codec -> Clauses.
Variable bounds : Bounds.
Variable order_by_stutter : bool.




(** X11. With stutter ordering and [allow_unminimized], an exception the
    optimizer raises at the first satisfiable size ends [find_models]:
    no larger size is tried; after a normal end of the optimizer the loop
    goes on with the next size. *)
Theorem optimizer_exception_ends_driver
    (j : nat) (accepting rejecting : list Word)
    (alphabet : option (list Symbol)) (codec : Codec) (clauses : Clauses) :
  order_by_stutter = true ->
  contradictory accepting rejecting = false ->
  accepting ++ rejecting <> [] ->
  (forall i, (i < j)%nat ->
     dfa_id_encodings SymMode symmetry_clauses sym_mode extra_clauses bounds
       (from_examples accepting rejecting alphabet) true i <> None
     /\ satisfiable_at solver_fact
          (dfa_id_encodings SymMode symmetry_clauses sym_mode extra_clauses bounds
       (from_examples accepting rejecting alphabet) true) i = false) ->
  dfa_id_encodings SymMode symmetry_clauses sym_mode extra_clauses bounds
       (from_examples accepting rejecting alphabet) true j = Some (codec, clauses) ->
  solve solver_fact clauses = true ->
  forall fuel,
    (forall ex,
       snd (Stutter.order_models_by_stutter solver_fact card codec clauses fuel
          (get_model solver_fact clauses))
       = Some (Raised ex) ->
       find_models solver_fact card SymMode symmetry_clauses sym_mode
       extra_clauses bounds order_by_stutter
       (S (S (j + fuel))) accepting rejecting alphabet true
       = (map Query
         (map (clauses_at
                 (dfa_id_encodings SymMode symmetry_clauses sym_mode extra_clauses bounds
       (from_examples accepting rejecting alphabet) true))
              (seq 0 j))
       ++ Query clauses
          :: map (map_event (pair codec))
               (fst (Stutter.order_models_by_stutter solver_fact card codec clauses fuel
          (get_model solver_fact clauses))),
          Some (Raised ex)))
    /\ (snd (Stutter.order_models_by_stutter solver_fact card codec clauses fuel
          (get_model solver_fact clauses))
        = Some Stop ->
        find_models solver_fact card SymMode symmetry_clauses sym_mode
       extra_clauses bounds order_by_stutter
       (S (S (j + fuel))) accepting rejecting alphabet true
        = ((map Query
         (map (clauses_at
                 (dfa_id_encodings SymMode symmetry_clauses sym_mode extra_clauses bounds
       (from_examples accepting rejecting alphabet) true))
              (seq 0 j))
       ++ Query clauses
          :: map (map_event (pair codec))
               (fst (Stutter.order_models_by_stutter solver_fact card codec clauses fuel
          (get_model solver_fact clauses))))
           ++ fst (loop solver_fact card order_by_stutter fuel
                     (dfa_id_encodings SymMode symmetry_clauses sym_mode extra_clauses bounds
       (from_examples accepting rejecting alphabet) true)
                     true (S j)),
           snd (loop solver_fact card order_by_stutter fuel
                  (dfa_id_encodings SymMode symmetry_clauses sym_mode extra_clauses bounds
       (from_examples accepting rejecting alphabet) true)
                  true (S j)))).
Proof.
  intros Ho Hc Hne Hun Ej Hs fuel.
  rewrite find_models_main by assumption.
  replace (S (j + fuel)) with (j + S fuel)%nat by lia.
  rewrite loop_skips_trace by (intros; apply Hun; lia).
  cbn [Nat.add loop]. rewrite Ej, (loop_body_stutter _ _ _ _ _ _ _ Ho Hs). split.
  - intros ex ->. reflexivity.
  - intros ->. cbn [after_models].
    destruct (loop _ _ _ fuel _ true (S j)) as [t e]. cbn [fst snd].
    now rewrite <- app_assoc.
Qed.

End DriverTrace.

(** ** Round-robin, whatever the endings *)

Lemma roundrobin_from_prefix {A} (n : nat) :
  forall (cur other : Gen A),
    (length (items (fst cur)) + length (items (fst other)) < n)%nat ->
    exists rest,
      interleave (items (fst cur)) (items (fst other))
      = items (fst (roundrobin_from n cur other)) ++ rest.
Proof.
  induction n as [|n IH]; intros [tc ec] [to eo] Hn; simpl in *; [lia|].
  destruct (pull tc) as [pre [[x rest]|]] eqn:E.
  - destruct (pull_yield _ _ _ _ E) as (H1 & H2 & _).
    destruct (IH (to, eo) (rest, ec)) as (r & Hr).
    { simpl. rewrite H1 in Hn. simpl in Hn. lia. }
    destruct (roundrobin_from n (to, eo) (rest, ec)) as [t e].
    simpl in *. exists r.
    rewrite items_app, H2, H1, interleave_swap, Hr. reflexivity.
  - destruct (pull_none _ _ E) as (-> & H). rewrite H.
    destruct ec as [[|ex]|]; simpl.
    + exists []. now rewrite items_app, H, app_nil_r.
    + exists (items to). now rewrite H.
    + exists (items to). now rewrite H.
Qed.

Lemma roundrobin_starts_with_first {A} (a b : Gen A) (x : A) (l : list A) :
  items (fst a) = x :: l ->
  hd_error (items (fst (roundrobin a b))) = Some x.
Proof.
  intros H. unfold roundrobin. cbn [roundrobin_from].
  destruct (pull (fst a)) as [pre [[y rest]|]] eqn:E.
  - destruct (pull_yield _ _ _ _ E) as (H1 & H2 & _).
    destruct (roundrobin_from _ b (rest, snd a)) as [t e]. cbn [fst].
    rewrite items_app, H2. cbn [app items hd_error]. congruence.
  - destruct (pull_none _ _ E) as (_ & H0). congruence.
Qed.

Lemma roundrobin_first_raises {A} (a b : Gen A) (ex : exn) :
  items (fst a) = [] -> snd a = Some (Raised ex) ->
  roundrobin a b = a.
Proof.
  intros H He. unfold roundrobin. cbn [roundrobin_from].
  destruct (pull (fst a)) as [pre [[y rest]|]] eqn:E.
  - destruct (pull_yield _ _ _ _ E) as (H1 & _). congruence.
  - destruct (pull_none _ _ E) as (-> & _). rewrite He.
    destruct a as [ta ea]. simpl in *. congruence.
Qed.

Section DualityFacts.

Variable solver_fact : SolverFact.
Variable card : CardEnc.
Variable SymMode : Type.
Variable symmetry_clauses : SymMode -> APTA -> Codec -> Clauses.
Variable sym_mode : SymMode.
Variable extra_clauses : Codec -> Clauses.
Variable bounds : Bounds.
Variable order_by_stutter : bool.

(** X12. With no examples and an alphabet, whatever the two runs do
    (end, raise, or go on beyond the budget), the values yielded so far
    are a prefix of the alternation of the values of the two runs, and
    the first value is the first one of the run that accepts the empty
    word when that run has one; if that run raises before its first
    value, the exception ends the interleaving before the other run is
    advanced. *)
Theorem empty_word_alternation_prefix
    (fuel : nat) (alphabet : option (list Symbol)) (allow_unminimized : bool) :
  falsy alphabet = false ->
  (exists rest,
      interleave
        (items (fst (find_models solver_fact card SymMode symmetry_clauses sym_mode
         extra_clauses bounds order_by_stutter
         fuel [[]] [] alphabet allow_unminimized)))
        (items (fst (find_models solver_fact card SymMode symmetry_clauses sym_mode
         extra_clauses bounds order_by_stutter
         fuel [] [[]] alphabet allow_unminimized)))
      = items (fst (find_models solver_fact card SymMode symmetry_clauses sym_mode
         extra_clauses bounds order_by_stutter
         (S fuel) [] [] alphabet allow_unminimized))
        ++ rest)
  /\ (forall x l,
        items (fst (find_models solver_fact card SymMode symmetry_clauses sym_mode
         extra_clauses bounds order_by_stutter
         fuel [[]] [] alphabet allow_unminimized)) = x :: l ->
        hd_error (items (fst (find_models solver_fact card SymMode symmetry_clauses sym_mode
         extra_clauses bounds order_by_stutter
         (S fuel) [] [] alphabet allow_unminimized)))
        = Some x)
  /\ (forall ex,
        items (fst (find_models solver_fact card SymMode symmetry_clauses sym_mode
         extra_clauses bounds order_by_stutter
         fuel [[]] [] alphabet allow_unminimized)) = [] ->
        snd (find_models solver_fact card SymMode symmetry_clauses sym_mode
         extra_clauses bounds order_by_stutter
         fuel [[]] [] alphabet allow_unminimized) = Some (Raised ex) ->
        find_models solver_fact card SymMode symmetry_clauses sym_mode
         extra_clauses bounds order_by_stutter
         (S fuel) [] [] alphabet allow_unminimized
        = find_models solver_fact card SymMode symmetry_clauses sym_mode
         extra_clauses bounds order_by_stutter
         fuel [[]] [] alphabet allow_unminimized).
Proof.
  intros Hf.
  assert (E : find_models solver_fact card SymMode symmetry_clauses sym_mode
         extra_clauses bounds order_by_stutter
         (S fuel) [] [] alphabet allow_unminimized
              = roundrobin
                  (find_models solver_fact card SymMode symmetry_clauses sym_mode
         extra_clauses bounds order_by_stutter
         fuel [[]] [] alphabet allow_unminimized)
                  (find_models solver_fact card SymMode symmetry_clauses sym_mode
         extra_clauses bounds order_by_stutter
         fuel [] [[]] alphabet allow_unminimized)).
  { cbn [find_models contradictory existsb length Nat.eqb andb].
    now rewrite Hf. }
  rewrite E. split; [|split].
  - apply roundrobin_from_prefix. lia.
  - intros x l. apply roundrobin_starts_with_first.
  - intros ex. apply roundrobin_first_raises.
Qed.

End DualityFacts.

(** ** No model twice *)

Section NoRepetition.

Variable solver_fact : SolverFact.
Variable card : CardEnc.
Variable codec : Codec.
Variable clauses : Clauses.

Hypothesis exact : Stutter.equals_exact solver_fact card codec clauses.
Hypothesis enum_once : forall q, NoDup (enum_models solver_fact q).

Lemma card_models_once mk top_id b :
  NoDup (items (Stutter.find_models solver_fact codec clauses mk top_id b)).
Proof.
  rewrite items_find_card_models.
  destruct (solve solver_fact _); [apply enum_once | constructor].
Qed.

Lemma sweep_items_bounds (top_id : Z) :
  forall bs cb w,
    In w (items (fst (Stutter.sweep solver_fact card codec clauses
                                    top_id bs cb))) ->
    exists b, In b bs /\ Stutter.non_stutter_count codec w = Ok b.
Proof.
  induction bs as [|b bs IH]; intros cb w; cbn [Stutter.sweep]; [intros []|].
  assert (Step : forall cb',
             In w (items (Stutter.find_models solver_fact codec clauses
                            (equals card) top_id b
                          ++ fst (Stutter.sweep solver_fact card codec clauses
                                                top_id bs cb'))) ->
             exists b0, In b0 (b :: bs)
                        /\ Stutter.non_stutter_count codec w = Ok b0).
  { intros cb'. rewrite items_app, in_app_iff. intros [H|H].
    - exists b. split; [now left | apply (exact top_id b w H)].
    - destruct (IH cb' w H) as (b0 & Hb0 & Hc). exists b0. split; auto.
      now right. }
  destruct (b >? cb).
  - destruct (Stutter.first_model _ _ _ _ _ _) as [w0|]; [|intros []].
    destruct (Stutter.non_stutter_count codec w0) as [c|]; [|intros []].
    destruct (Stutter.sweep _ _ _ _ top_id bs c) as [t e] eqn:E. cbn [fst items].
    intros H. apply (Step c). now rewrite E.
  - destruct (Stutter.sweep _ _ _ _ top_id bs cb) as [t e] eqn:E. cbn [fst].
    intros H. apply (Step cb). now rewrite E.
Qed.

Lemma sweep_once (top_id : Z) :
  forall bs cb,
    StronglySorted Z.lt bs ->
    NoDup (items (fst (Stutter.sweep solver_fact card codec clauses
                                     top_id bs cb))).
Proof.
  induction bs as [|b bs IH]; intros cb Hs; cbn [Stutter.sweep];
    [constructor|].
  inversion Hs as [|? ? Hs' Hb]; subst. rewrite Forall_forall in Hb.
  assert (Step : forall cb',
             NoDup (items (Stutter.find_models solver_fact codec clauses
                             (equals card) top_id b
                           ++ fst (Stutter.sweep solver_fact card codec
                                     clauses top_id bs cb')))).
  { intros cb'. rewrite items_app. apply NoDup_app.
    - apply card_models_once.
    - apply IH, Hs'.
    - intros w H1 H2. destruct (exact top_id b w H1) as [_ C1].
      destruct (sweep_items_bounds top_id bs cb' w H2) as (b0 & Hb0 & C2).
      specialize (Hb b0 Hb0). rewrite C1 in C2. injection C2 as ->. lia. }
  destruct (b >? cb).
  - destruct (Stutter.first_model _ _ _ _ _ _) as [w0|]; [|constructor].
    destruct (Stutter.non_stutter_count codec w0) as [c|]; [|constructor].
    specialize (Step c).
    destruct (Stutter.sweep _ _ _ _ top_id bs c) as [t e]. exact Step.
  - specialize (Step cb).
    destruct (Stutter.sweep _ _ _ _ top_id bs cb) as [t e]. exact Step.
Qed.

End NoRepetition.

(** X13. When every exactly session enumerates models with exactly its
    bound of non-stutter transitions and no session enumerates a model
    twice, [order_models_by_stutter] never emits the same model twice. *)
Theorem stutter_order_no_repetition
    (solver_fact : SolverFact) (card : CardEnc) (codec : Codec)
    (clauses : Clauses) (fuel : nat) (model : Model) :
  Stutter.equals_exact solver_fact card codec clauses ->
  (forall q, NoDup (enum_models solver_fact q)) ->
  NoDup (items (fst (Stutter.order_models_by_stutter
                       solver_fact card codec clauses fuel model))).
Proof.
  intros Hex Hnd. unfold Stutter.order_models_by_stutter.
  destruct (py_max_map_max clauses) as [top0|]; [|constructor].
  destruct (Stutter.non_stutter_count codec model) as [hi|]; [|constructor].
  destruct (Stutter.search _ _ _ _ _ _ _ hi) as [[qs [[lo1 hi1]|ex]]|];
    cbn [fst]; rewrite ?items_map_Query; try constructor.
  pose proof (sweep_once solver_fact card codec clauses Hex Hnd
                (Z.max (max_id codec) top0)
                (py_range lo1 (Z.of_nat (length (Stutter.lits codec)) + 1))
                hi (py_range_increasing _ _)) as H.
  destruct (Stutter.sweep _ _ _ _ _ _ hi) as [t e]. cbn [fst] in *.
  now rewrite items_app, items_map_Query.
Qed.

(** ** The further properties on the worked instance *)

Lemma flat_map_pair_NoDup {A} (f g : list A -> list A) (l : list (list A)) :
  (forall m, f m <> g m) ->
  (forall m m', f m = f m' -> m = m') ->
  (forall m m', g m = g m' -> m = m') ->
  (forall m m', f m <> g m') ->
  NoDup l -> NoDup (flat_map (fun m => [f m; g m]) l).
Proof.
  intros Hfg Hf Hg Hx. induction 1 as [|m l Hm Hl IH]; cbn [flat_map app];
    [constructor|].
  constructor.
  - intros [E|H]; [now apply (Hfg m)|].
    apply in_flat_map in H. destruct H as (m' & Hm' & [E|[E|[]]]).
    + apply Hf in E. congruence.
    + symmetry in E. now apply Hx in E.
  - constructor; [|exact IH].
    intros H. apply in_flat_map in H. destruct H as (m' & Hm' & [E|[E|[]]]).
    + now apply Hx in E.
    + apply Hg in E. congruence.
Qed.

Lemma assignments_NoDup (n : nat) : NoDup (Reference.assignments n).
Proof.
  induction n as [|n IH]; cbn [Reference.assignments].
  - constructor; [intros []|constructor].
  - apply (flat_map_pair_NoDup (fun m => m ++ [- Z.of_nat (S n)])
                               (fun m => m ++ [Z.of_nat (S n)])); auto.
    + intros m E. apply app_inv_head in E. injection E. lia.
    + intros m m' E. now apply app_inj_tail in E.
    + intros m m' E. now apply app_inj_tail in E.
    + intros m m' E. apply app_inj_tail in E. lia.
Qed.

Lemma reference_enum_once (q : Clauses) :
  NoDup (enum_models Reference.solver q).
Proof. apply NoDup_filter, assignments_NoDup. Qed.

Lemma search_logarithmic_witness :
  exists qs r,
    Stutter.search Reference.solver Reference.card Example.codec Example.clauses
                   (S (Z.to_nat (Z.log2 (2 - 1)))) 10 1 2
    = Some (qs, r)
    /\ Z.of_nat (length qs) <= Z.log2 (2 - 1) + 1.
Proof.
  apply (search_logarithmic Reference.solver Reference.card
                            Example.codec Example.clauses 10 1 2).
  lia.
Defined.

Lemma search_probes_in_range_witness :
  Forall (fun q => exists mid,
              1 <= mid < 2
              /\ q = Stutter.formula_query Example.codec Example.clauses
                                           (atmost Reference.card) 10 mid)
         [Stutter.formula_query Example.codec Example.clauses
                                (atmost Reference.card) 10 1].
Proof.
  apply (search_probes_in_range Reference.solver Reference.card
                                Example.codec Example.clauses 10 1 1 2 _
                                (Ok (1, 1))).
  vm_compute. reflexivity.
Defined.

Lemma sweep_never_stops_early_witness :
  snd (Stutter.order_models_by_stutter Reference.solver Reference.card
         Example.codec Example.clauses 1 Example.model)
  = Some Stop.
Proof.
  refine (proj1 (sweep_never_stops_early
                   Reference.solver Reference.card Example.codec
                   Example.clauses 1 Example.model 10 2 _ _ _ _ _ _)).
  - apply reference_atmost, example_lits_in_range.
  - apply reference_atmost_bounded, example_lits_in_range.
  - vm_compute. reflexivity.
  - vm_compute. reflexivity.
  - vm_compute. reflexivity.
  - vm_compute. discriminate.
Defined.

Lemma witness_over_bound_asserts_witness :
  Stutter.order_models_by_stutter (Stubborn.solver Example.model)
    Reference.card Example.codec Example.clauses 1 Example.model
  = ([Query (Stutter.formula_query Example.codec Example.clauses
               (atmost Reference.card) (Z.max (max_id Example.codec) 10)
               ((Z.of_nat (n_colors Example.codec) - 1 + 2) / 2))],
     Some (Raised AssertionError)).
Proof.
  refine (proj1 (witness_over_bound_asserts
                   (Stubborn.solver Example.model) Reference.card
                   Example.codec Example.clauses 0 Example.model 10 2
                   Example.model 2 _ _ _ _ _ _)).
  - vm_compute. reflexivity.
  - vm_compute. reflexivity.
  - vm_compute. reflexivity.
  - vm_compute. reflexivity.
  - vm_compute. reflexivity.
  - vm_compute. reflexivity.
Defined.

Lemma empty_clauses_value_error_witness :
  Stutter.order_models_by_stutter Reference.solver Reference.card
    Example.codec [] 1 Example.model
  = ([], Some (Raised ValueError)).
Proof.
  apply (proj1 (empty_clauses_value_error Reference.solver Reference.card
                  Example.codec [] 1 Example.model)).
  now left.
Defined.

Lemma non_stutter_count_defined_witness :
  exists c, Stutter.non_stutter_count Example.codec Example.model = Ok c.
Proof.
  apply (proj1 (non_stutter_count_defined Example.codec Example.model)).
  apply Forall_forall. intros x Hx. vm_compute in Hx.
  destruct Hx as [<-|[<-|[]]]; vm_compute; split;
    [discriminate | reflexivity | discriminate | reflexivity].
Defined.




Lemma optimizer_exception_ends_driver_witness :
  snd (find_models (Stubborn.solver Example.model) Reference.card unit
         Example.no_symmetry tt Example.no_extra (Some 2%nat, None) true
         (S (S (0 + 1))) Example.accepting Example.rejecting None true)
  = Some (Raised AssertionError).
Proof.
  destruct (optimizer_exception_ends_driver
              (Stubborn.solver Example.model) Reference.card unit
              Example.no_symmetry tt Example.no_extra
              (Some 2%nat, None) true
              0 Example.accepting Example.rejecting None
              Example.codec Example.clauses
              eq_refl eq_refl ltac:(discriminate)
              ltac:(intros i Hi; lia)
              ltac:(vm_compute; reflexivity) eq_refl 1%nat) as [H _].
  rewrite (H AssertionError); [reflexivity | vm_compute; reflexivity].
Defined.

Lemma empty_word_alternation_prefix_witness :
  exists rest,
    interleave
      (items (fst (find_models Reference.solver Reference.card unit Example.no_symmetry tt
    Example.no_extra (None, Some 2%nat) false
                     4 [[]] [] (Some [Example.sym_a]) true)))
      (items (fst (find_models Reference.solver Reference.card unit Example.no_symmetry tt
    Example.no_extra (None, Some 2%nat) false
                     4 [] [[]] (Some [Example.sym_a]) true)))
    = items (fst (find_models Reference.solver Reference.card unit Example.no_symmetry tt
    Example.no_extra (None, Some 2%nat) false
                    5 [] [] (Some [Example.sym_a]) true))
      ++ rest.
Proof.
  apply (proj1 (empty_word_alternation_prefix
                  Reference.solver Reference.card unit Example.no_symmetry tt
    Example.no_extra (None, Some 2%nat) false
                  4 (Some [Example.sym_a]) true eq_refl)).
Defined.

Lemma stutter_order_no_repetition_witness :
  NoDup (items (fst (Stutter.order_models_by_stutter
                       Reference.solver Reference.card Example.codec
                       Example.clauses 1 Example.model))).
Proof.
  apply (stutter_order_no_repetition Reference.solver Reference.card
                                     Example.codec Example.clauses 1
                                     Example.model).
  - apply reference_equals_exact, example_lits_in_range.
  - apply reference_enum_once.
Defined.
